(** * Newton-type optimisers and the equality-constrained QP solver

    A shallow embedding of the two notebooks of the repository:

    - [Optimization_Using_Autodiff.ipynb]: class [newton_opt] with its
      method [optimize] (gradient descent, Gauss-Newton,
      Levenberg-Marquardt, exact Newton and BFGS, with an optional Armijo
      backtracking line search);
    - [Equality_constrained_optimization_QP.ipynb]: function [QP]
      (null-space method and naive KKT solve) and the objective of its
      example cell;
    - the regression example of the first notebook: the cell that
      generates the data and the error vector [f_vec_err].

    Scalars are the elements of an ordered field: every statement below is
    a statement of exact arithmetic, rounding is not modelled.  A division
    by zero is the one place where the floating-point values of the code
    leave the field: an array that holds [Inf] or [NaN] is marked as such
    ([NonFinite]), and a computation that goes on from one is not followed
    ([NotFinite]).  Arrays of
    shape (r, c) are matrices ['M_(r, c)], one-dimensional arrays of length
    k are columns ['cV_k].  The numerical library routines that the
    notebooks call (automatic differentiation, [tf.linalg.pinv],
    [np.linalg.norm], [np.linalg.qr], [np.linalg.lstsq]) are parameters of
    the embedding, collected in the records [oracle] and [linalg]. *)

From HB Require Import structures.
From mathcomp Require Import boot order perm algebra.
From mathcomp Require Import ring lra algC.

Set Implicit Arguments.
Unset Strict Implicit.
Unset Printing Implicit Defensive.

Import GRing.Theory Num.Theory Order.Theory.
Local Open Scope ring_scope.

(** ** Outcomes of a Python call

    A call returns a value, raises an exception, or is still running when
    the fuel of the embedding is spent.  The fourth outcome is for the
    floating-point values that are no elements of a field: the call has
    computed an array that holds [Inf] or [NaN] and goes on computing with
    it, without raising anything; the exact arithmetic of the embedding
    does not follow it further. *)

Inductive exn : Type := ZeroDivisionError | ValueError.

Inductive outcome (A : Type) : Type :=
  | Done of A
  | Raised of exn
  | Starved
  | NotFinite.

Arguments Raised {A} _.
Arguments Starved {A}.
Arguments NotFinite {A}.

Definition bind (A B : Type) (o : outcome A) (k : A -> outcome B) : outcome B :=
  match o with
  | Done a => k a
  | Raised e => Raised e
  | Starved => Starved
  | NotFinite => NotFinite
  end.

Notation "x <- o ;; k" := (bind o (fun x => k))
  (at level 61, o at next level, right associativity).


Definition raises (A : Type) (o : outcome A) : bool :=
  if o is Raised _ then true else false.

(** ** The optimiser of [Optimization_Using_Autodiff.ipynb] *)

Module Newton.

(** The five method tags accepted by [newton_opt]. *)
Inductive method : Type := GD | GN | LM | EN | BFGS.

(** What [alpha] is handed over as.  A division by a Python number ([int]
    or [float]) that is zero raises [ZeroDivisionError]; a division by a
    numpy or TensorFlow scalar that is zero raises nothing and gives
    [inf]. *)
Inductive number_kind : Type := PyNumber | ArrayScalar.

(** A floating-point array of shape (r, c): either all its entries are
    numbers, and it is a matrix over the field, or some entries are [Inf]
    or [NaN]. *)
Inductive tf_matrix (R : Type) (r c : nat) : Type :=
  | Finite of 'M[R]_(r, c)
  | NonFinite.

Arguments NonFinite {R r c}.

Coercion Finite : matrix >-> tf_matrix.

Section Optimizer.

Variable R : realFieldType.

(** [m] is [self.m], the number of parameters; [N] is the length of the
    error vector returned by [fcn]. *)
Variables m N : nat.

(** The library routines [optimize] relies on.  [jac_fcn] and [jac_sq] are
    what [jacob] returns when [self.f] is the error vector [fcn]
    (methods GN, LM) and when it is the squared error (methods GD, EN,
    BFGS); [hess_sq] is what [hess] returns; [pinv] is [tf.linalg.pinv] and
    [norm] is [np.linalg.norm]. *)
Record oracle : Type := Oracle {
  jac_fcn : 'cV[R]_m -> 'M[R]_(N, m);
  jac_sq : 'cV[R]_m -> 'rV[R]_m;
  hess_sq : 'cV[R]_m -> 'M[R]_m;
  pinv : 'M[R]_m -> 'M[R]_m;
  norm : 'cV[R]_m -> R
}.

Variable fcn : 'cV[R]_m -> 'cV[R]_N.
Variable lib : oracle.

(** [f_sq_err]: the sum of the squares of the error vector. *)
Definition f_sq_err (x : 'cV[R]_m) : R := \sum_k fcn x k 0 * fcn x k 0.

(** The fields set by [__init__] that [optimize] reads; [alpha_kind] is
    the Python type of the object in [self.alpha]. *)
Record newton_opt : Type := NewtonOpt {
  eps : R;
  x : 'cV[R]_m;
  alpha : R;
  alpha_kind : number_kind;
  method_ : method;
  global_ : bool
}.

(** [__init__]: Gauss-Newton is Levenberg-Marquardt with [alpha = 0], the
    Python float [0.] that [__init__] puts there. *)
Definition init_as (k : number_kind) (x0 : 'cV[R]_m) (meth : method)
  (glob : bool) (a e : R) : newton_opt :=
  NewtonOpt e x0 (if meth is GN then 0 else a)
    (if meth is GN then PyNumber else k) meth glob.

(** [__init__] called with a Python number for [alpha], as the default of
    the signature is, and called with a numpy or TensorFlow scalar. *)
Definition init (x0 : 'cV[R]_m) (meth : method) (glob : bool) (a e : R) :
  newton_opt :=
  init_as PyNumber x0 meth glob a e.

Definition init_scalar (x0 : 'cV[R]_m) (meth : method) (glob : bool)
  (a e : R) : newton_opt :=
  init_as ArrayScalar x0 meth glob a e.

(** The variables of the loop of [optimize]: [self.x], [i] and [B]. *)
Record loop_state : Type := LoopState {
  cur_x : 'cV[R]_m;
  cur_i : nat;
  cur_B : tf_matrix R m m
}.

(** What a run hands back: the returned [self.x], the iteration count it
    prints, and whether the warning line was printed. *)
Record report : Type := Report {
  final_x : 'cV[R]_m;
  iterations : nat;
  warning : bool
}.

(** [gradf], first block of the loop body. *)
Definition gradient (self : newton_opt) (xk : 'cV[R]_m) : 'cV[R]_m :=
  match method_ self with
  | GD | EN | BFGS => (jac_sq lib xk)^T
  | GN | LM => (jac_fcn lib xk)^T *m fcn xk
  end.

(** [B], second block of the loop body.  [1/self.alpha] with a zero
    [alpha] raises when [alpha] is a Python number; when it is a numpy or
    TensorFlow scalar the quotient is [inf] and [B] holds [Inf] and [NaN].
    For BFGS the matrix of the previous iteration is kept.  What the rest
    of the body computes from a [B] that holds [Inf] or [NaN] is not
    followed. *)
Definition curvature (self : newton_opt) (xk : 'cV[R]_m)
  (B : tf_matrix R m m) : outcome 'M[R]_m :=
  match method_ self with
  | GD => if alpha self == 0
          then (if alpha_kind self is PyNumber
                then Raised ZeroDivisionError else NotFinite)
          else Done ((1 / alpha self) *: 1%:M)
  | GN | LM =>
      Done ((jac_fcn lib xk)^T *m jac_fcn lib xk + alpha self *: 1%:M)
  | EN => Done (hess_sq lib xk)
  | BFGS => if B is Finite B0 then Done B0 else NotFinite
  end.

Definition gamma_ : R := 1 / 10%:R.
Definition beta_ : R := 8%:R / 10%:R.

(** The condition of the inner [while], without its [or t < 0.1] part. *)
Definition armijo_fails (xk g dx : 'cV[R]_m) (t : R) : bool :=
  f_sq_err xk + gamma_ * t * (\sum_k g k 0 * dx k 0) <= f_sq_err (xk + t *: dx).

(** The inner [while] loop: [t] is multiplied by [beta_] as long as the
    condition [armijo_fails ... or t < 0.1] holds. *)
Fixpoint backtrack (fuel : nat) (xk g dx : 'cV[R]_m) (t : R) : outcome R :=
  if fuel is k.+1 then
    if armijo_fails xk g dx t || (t < 1 / 10%:R)
    then backtrack k xk g dx (beta_ * t)
    else Done t
  else Starved.

(** The two denominators [c1] and [c2] of the BFGS update. *)
Definition bfgs_c1 (B : 'M[R]_m) (s : 'cV[R]_m) : R := (s^T *m B *m s) 0 0.
Definition bfgs_c2 (s y : 'cV[R]_m) : R := (s^T *m y) 0 0.

(** The last line of the [if self.method == "BFGS"] block.  The two
    quotients [1/c1] and [1/c2] are quotients of tensors: with a zero
    denominator they are [inf], the products by [inf] are [Inf] or [NaN]
    in every entry, and so is the sum. *)
Definition bfgs_update (B : 'M[R]_m) (s y : 'cV[R]_m) : tf_matrix R m m :=
  let Bs := B *m s in
  if (bfgs_c1 B s == 0) || (bfgs_c2 s y == 0) then NonFinite
  else Finite (B - (1 / bfgs_c1 B s) *: (Bs *m Bs^T)
               + (1 / bfgs_c2 s y) *: (y *m y^T)).

(** The difference of gradients [y] used by the BFGS block. *)
Definition bfgs_y (xnew xold : 'cV[R]_m) : 'cV[R]_m :=
  (jac_sq lib xnew - jac_sq lib xold)^T.

(** One pass through the body of the outer [while True], up to and
    including [i = i+1]; the step [dx] is handed to the exit test. *)
Definition step (lf : nat) (self : newton_opt) (st : loop_state) :
  outcome (loop_state * 'cV[R]_m) :=
  let gradf := gradient self (cur_x st) in
  B <- curvature self (cur_x st) (cur_B st) ;;
  let invB := pinv lib B in
  let dx0 := - (invB *m gradf) in
  dx <- (if global_ self
         then t <- backtrack lf (cur_x st) gradf dx0 1 ;; Done (t *: dx0)
         else Done dx0) ;;
  let xold := cur_x st in
  let xnew := cur_x st + dx in
  let B' := if method_ self is BFGS
            then bfgs_update B dx (bfgs_y xnew xold) else Finite B in
  Done (LoopState xnew (cur_i st).+1 B', dx).

(** The exit condition tested at the end of the body. *)
Definition exit_test (self : newton_opt) (max_it : nat)
  (st : loop_state) (dx : 'cV[R]_m) : bool :=
  (norm lib dx < eps self) || (max_it < cur_i st)%N.

(** The outer loop. *)
Fixpoint optimize_loop (lf fuel : nat) (self : newton_opt) (max_it : nat)
  (st : loop_state) : outcome report :=
  if fuel is k.+1 then
    r <- step lf self st ;;
    if exit_test self max_it r.1 r.2
    then Done (Report (cur_x r.1) (cur_i r.1) (max_it < cur_i r.1)%N)
    else optimize_loop lf k self max_it r.1
  else Starved.

Definition start (self : newton_opt) : loop_state :=
  LoopState (x self) 0 (Finite 1%:M).

Definition optimize (lf fuel : nat) (self : newton_opt) (max_it : nat) :
  outcome report :=
  optimize_loop lf fuel self max_it (start self).

(** The state and the step after [k+1] passes through the body, the exit
    test being left aside. *)
Fixpoint pass (lf : nat) (self : newton_opt) (k : nat) (st : loop_state) :
  outcome (loop_state * 'cV[R]_m) :=
  if k is k'.+1 then r <- step lf self st ;; pass lf self k' r.1
  else step lf self st.

(** Specification vocabulary, not code: in each of the passes [0..k] that
    start from [st] the two denominators of the BFGS update are non-zero. *)
Fixpoint nondegenerate (lf : nat) (self : newton_opt) (k : nat)
  (st : loop_state) : bool :=
  if step lf self st is Done r then
    [&& (if cur_B st is Finite B then bfgs_c1 B r.2 != 0 else false),
        bfgs_c2 r.2 (bfgs_y (cur_x r.1) (cur_x st)) != 0
      & if k is k'.+1 then nondegenerate lf self k' r.1 else true]
  else false.

End Optimizer.

End Newton.

(** ** The solver of [Equality_constrained_optimization_QP.ipynb] *)

Module QPSolver.

(** The second argument of [QP]: the null-space branch is taken for
    ["NullSpace"], the naive branch for anything else. *)
Inductive qp_method : Type := NullSpace | Naive.

(** The names [n] and [m] are not arguments of [QP]: the body reads them
    from the enclosing scope. *)
Record globals : Type := Globals { g_n : nat; g_m : nat }.

Section Slices.

Variable T : Type.

(** Column (or row) index [k + j] of an array with [c] columns, for
    [j < c - k]: the indices kept by the slice [k:]. *)
Definition after (k c : nat) (j : 'I_(c - k)) : 'I_c :=
  Ordinal (etrans (esym (ltn_subRL k j c)) (ltn_ord j)).

(** The indices kept by the slice [:k], there are [minn k c] of them. *)
Definition before (k c : nat) (j : 'I_(minn k c)) : 'I_c :=
  widen_ord (geq_minr k c) j.

(** [M[:, k:]], [M[:, :k]] and [M[:k, :]]. *)
Definition cols_from (k r c : nat) (M : 'M[T]_(r, c)) : 'M[T]_(r, c - k) :=
  colsub (@after k c) M.
Definition cols_upto (k r c : nat) (M : 'M[T]_(r, c)) : 'M[T]_(r, minn k c) :=
  colsub (@before k c) M.
Definition rows_upto (k r c : nat) (M : 'M[T]_(r, c)) : 'M[T]_(minn k r, c) :=
  rowsub (@before k r) M.

End Slices.

Section QP.

Variable R : fieldType.

(** [np.linalg.qr(., mode='complete')] and [np.linalg.lstsq(., .)[0]]. *)
Record linalg : Type := Linalg {
  qr : forall r c : nat, 'M[R]_(r, c) -> 'M[R]_r * 'M[R]_(r, c);
  lstsq : forall r c : nat, 'M[R]_(r, c) -> 'cV[R]_r -> 'cV[R]_c
}.

Variable np : linalg.

(** Entry of an array at natural-number indices (0 outside the array,
    which [broadcast] never reaches when [fits] holds and the target is
    not empty). *)
Definition entry (r c : nat) (M : 'M[R]_(r, c)) (i j : nat) : R :=
  match insub i, insub j with
  | Some i', Some j' => M (i' : 'I_r) (j' : 'I_c)
  | _, _ => 0
  end.

(** numpy accepts the assignment of an array of shape (r, c) to a slice
    of shape (r', c') when each dimension agrees or is 1. *)
Definition fits (r c r' c' : nat) : bool :=
  ((r == r') || (r == 1%N)) && ((c == c') || (c == 1%N)).

Definition broadcast (r c : nat) (M : 'M[R]_(r, c)) (r' c' : nat) :
  'M[R]_(r', c') :=
  \matrix_(i < r', j < c')
    entry M (if r == r' then i : nat else 0%N) (if c == c' then j : nat else 0%N).

(** The contents of a one-dimensional array. *)
Definition ravel (k : nat) (v : 'cV[R]_k) : seq R :=
  [seq v i 0 | i <- enum 'I_k].

Section Body.

Variable env : globals.
Variables n m : nat.
Variable B : 'M[R]_n.
Variable c : 'cV[R]_n.
Variable A : 'M[R]_(m, n).
Variable b : 'cV[R]_m.

(** The intermediate values of the null-space branch; the slices are cut
    at the global [m]. *)
Definition ns_q : 'M[R]_n := (qr np A^T).1.
Definition ns_r : 'M[R]_(n, m) := (qr np A^T).2.
Definition ns_Z : 'M[R]_(n, n - g_m env) := cols_from (g_m env) ns_q.
Definition ns_Y : 'M[R]_(n, minn (g_m env) n) := cols_upto (g_m env) ns_q.
Definition ns_Rp : 'M[R]_(minn (g_m env) n, m) := rows_upto (g_m env) ns_r.
Definition ns_x_special : 'cV[R]_n := lstsq np A (- b).
Definition ns_a_ : 'M[R]_(n - g_m env) := ns_Z^T *m B *m ns_Z.
Definition ns_b_ : 'cV[R]_(n - g_m env) :=
  ns_Z^T *m c + ns_Z^T *m B *m ns_x_special.
Definition ns_x_g : 'cV[R]_(n - g_m env) := lstsq np ns_a_ (- ns_b_).
Definition ns_x : 'cV[R]_n := ns_Z *m ns_x_g + ns_x_special.
Definition ns_lambda : 'cV[R]_m :=
  lstsq np ns_Rp (- ns_Y^T *m (B *m ns_x + c)).

(** The naive branch: the arrays [nA_] and [nb_] have the sizes given by
    the globals [n] and [m], and the four blocks are assigned into them. *)
Definition nv_fits : bool :=
  [&& fits n n (g_n env) (g_n env), fits m n (g_m env) (g_n env),
      fits n m (g_n env) (g_m env), fits n 1 (g_n env) 1
    & fits m 1 (g_m env) 1].

Definition nv_A : 'M[R]_(g_n env + g_m env) :=
  block_mx (broadcast B (g_n env) (g_n env))
           (broadcast A^T (g_n env) (g_m env))
           (broadcast A (g_m env) (g_n env)) 0.

Definition nv_b : 'cV[R]_(g_n env + g_m env) :=
  col_mx (broadcast (- c) (g_n env) 1) (broadcast (- b) (g_m env) 1).

Definition nv_x_lambda : 'cV[R]_(g_n env + g_m env) := lstsq np nv_A nv_b.

(** [QP(B, c, A, b, method)]: the pair [(x, lambda_)]. *)
Definition QP (meth : qp_method) : outcome (seq R * seq R) :=
  match meth with
  | NullSpace => Done (ravel ns_x, ravel ns_lambda)
  | Naive =>
      if nv_fits
      then Done (ravel (usubmx nv_x_lambda), ravel (dsubmx nv_x_lambda))
      else Raised ValueError
  end.

End Body.

End QP.

(** Specification vocabulary, not code: what the statements below assume
    of the two numpy routines, and positive definiteness. *)
Section Contracts.

Variable R : realFieldType.

(** [lstsq] returns a least-squares solution: when the system has an
    exact solution, what it returns is one. *)
Definition lstsq_exact (np : linalg R) : Prop :=
  forall (r c : nat) (M : 'M[R]_(r, c)) (v : 'cV[R]_r) (x0 : 'cV[R]_c),
    M *m x0 = v -> M *m lstsq np M v = v.

(** [f] is a complete QR factorisation of [M]: an orthogonal square factor
    and an upper triangular factor of the shape of [M]. *)
Definition complete_qr (r c : nat) (M : 'M[R]_(r, c))
  (f : 'M[R]_r * 'M[R]_(r, c)) : Prop :=
  [/\ f.1 *m f.2 = M, f.1^T *m f.1 = 1%:M
     & forall (i : 'I_r) (j : 'I_c), (j < i)%N -> f.2 i j = 0].

Definition positive_definite (k : nat) (M : 'M[R]_k) : Prop :=
  forall u : 'cV[R]_k, u != 0 -> 0 < (u^T *m M *m u) 0 0.

End Contracts.

End QPSolver.

(** ** Exact routines for rational inputs

    Over the rationals a matrix that is already upper triangular is its own
    triangular factor, with the identity as orthogonal factor; and a
    generalised inverse gives an exact solution of every solvable system. *)

Module Exact.

Definition np : QPSolver.linalg rat :=
  QPSolver.Linalg
    (fun r c (M : 'M[rat]_(r, c)) => (1%:M, M))
    (fun r c (M : 'M[rat]_(r, c)) (v : 'cV[rat]_r) => pinvmx M *m v).

End Exact.

(** ** A concrete one-parameter problem

    Fit a single parameter to the target 0: the error vector of [x] is [x]
    itself, so the squared error is [x^2], its Jacobian is [2x] and its
    Hessian is [2].  In dimension one the Euclidean norm is the absolute
    value.  The pseudo-inverse is only used on invertible matrices, where it
    is the inverse. *)

Module Parabola.

Definition fcn (x : 'cV[rat]_1) : 'cV[rat]_1 := x.

Definition lib : Newton.oracle rat 1 1 :=
  Newton.Oracle
    (fun _ => 1%:M)
    (fun x => 2%:R *: x^T)
    (fun _ => 2%:R *: 1%:M)
    (fun B => pinvmx B)
    (fun v => `|v 0 0|).

End Parabola.

(** ** A concrete two-parameter problem

    Fit two parameters to the target (0, 0): the error vector of [x] is [x]
    itself, the squared error is [x1^2 + x2^2], its Jacobian is [2x'] and
    its Hessian is [2 I].  The Euclidean norm of a vector of rationals is
    no rational in general, so the scalars are the real algebraic numbers.
    [x0] is the point (1, 1). *)

Module Bowl.

Definition fcn (x : 'cV[algR]_2) : 'cV[algR]_2 := x.

Definition lib : Newton.oracle algR 2 2 :=
  Newton.Oracle
    (fun _ => 1%:M)
    (fun x => 2%:R *: x^T)
    (fun _ => 2%:R *: 1%:M)
    (fun B => pinvmx B)
    (fun v => Num.sqrt (\sum_i v i 0 * v i 0)).

Definition x0 : 'cV[algR]_2 := \col_i 1.

End Bowl.

(** ** Two small quadratic programs over the rationals

    [A1], [B1], [c1], [b1]: three variables, one constraint (the first
    variable is fixed), identity curvature.  [A2], [B2], [c2], [b2]: two
    variables, two constraints, whose transposed constraint matrix is upper
    triangular but not symmetric. *)

Module Cases.

Definition A1 : 'M[rat]_(1, 3) := \matrix_(i, j) (j == 0 :> nat)%:R.
Definition B1 : 'M[rat]_3 := 1%:M.
Definition c1 : 'cV[rat]_3 := \col_i (i == 1 :> nat)%:R.
Definition b1 : 'cV[rat]_1 := 1%:M.

Definition A2 : 'M[rat]_2 := \matrix_(i, j) (j <= i)%N%:R.
Definition B2 : 'M[rat]_2 := 0.
Definition c2 : 'cV[rat]_2 := \col_i (i == 1 :> nat)%:R.
Definition b2 : 'cV[rat]_2 := 0.

End Cases.

(** ** The regression example of [Optimization_Using_Autodiff.ipynb]

    The cell that generates the data and the function [f_vec_err] that the
    optimiser is run on.  The random draws of the cell (the true parameters,
    the columns of [Theta], the noise) are arguments. *)

Module Regression.

Section Model.

Variable R : realFieldType.
Variables m N : nat.

(** [tf.reduce_mean] of a column of [m] parameters. *)
Definition reduce_mean (x : 'cV[R]_m) : R := (\sum_i x i 0) / m%:R.

(** [x*x], the entrywise square. *)
Definition squares (x : 'cV[R]_m) : 'cV[R]_m := \col_i (x i 0 * x i 0).

(** The globals that [f_vec_err] reads: the three columns of [Theta] and
    the target vector [Y]. *)
Record data : Type := Data {
  t0 : 'cV[R]_N;
  t1 : 'cV[R]_N;
  t2 : 'cV[R]_N;
  Y : 'cV[R]_N
}.

(** The model output [x2_*t2 + x1_*t1 + x0_*t0], where [x2_] is the mean of
    the squares, [x1_] the mean, and [x0_] is 1. *)
Definition forward (u0 u1 u2 : 'cV[R]_N) (x : 'cV[R]_m) : 'cV[R]_N :=
  reduce_mean (squares x) *: u2 + reduce_mean x *: u1 + 1 *: u0.

(** The data cell: [Y = Z0 + 0.001 * noise], with [Z0] the model output at
    the true parameters [x0]. *)
Definition generate (x0 : 'cV[R]_m) (u0 u1 u2 noise : 'cV[R]_N) : data :=
  Data u0 u1 u2 (forward u0 u1 u2 x0 + (1 / 1000%:R) *: noise).

(** [f_vec_err]: target minus model output. *)
Definition f_vec_err (d : data) (x : 'cV[R]_m) : 'cV[R]_N :=
  Y d - forward (t0 d) (t1 d) (t2 d) x.

End Model.

End Regression.

(** ** The example cell of [Equality_constrained_optimization_QP.ipynb]

    The value printed as the minimum: [0.5*x.T@B@x + c.T@x], the objective
    of the docstring of [QP]. *)

Module QPExample.

Definition objective (R : realFieldType) (n : nat) (B : 'M[R]_n)
  (c x : 'cV[R]_n) : R :=
  ((1 / 2%:R) *: (x^T *m B *m x) + c^T *m x) 0 0.

End QPExample.

(** * Properties of the optimiser *)

Module NewtonFacts.

Import Newton.

Section Outcomes.

Variables A B : Type.

Lemma bind_Done (a : A) (k : A -> outcome B) : (x <- Done a ;; k x) = k a.
Proof. by []. Qed.

Lemma bind_returns (o : outcome A) (k : A -> outcome B) (v : B) :
  (x <- o ;; k x) = Done v -> exists2 a, o = Done a & k a = Done v.
Proof. by case: o => [a|e||] //= kv; exists a. Qed.

End Outcomes.

Section LineSearch.

Variable R : realFieldType.
Variables m N : nat.
Variable fcn : 'cV[R]_m -> 'cV[R]_N.

Lemma beta_le1 : beta_ R <= 1.
Proof. by rewrite /beta_ ler_pdivrMr ?ltr0n // mul1r ler_nat. Qed.

Lemma beta_gt0 : 0 < beta_ R.
Proof. by rewrite /beta_ divr_gt0 // ltr0n. Qed.




(** With a zero step the sufficient-decrease test fails for every [t]. *)
Lemma armijo_fails_zero_step (xk g : 'cV[R]_m) (t : R) :
  armijo_fails fcn xk g 0 t.
Proof.
rewrite /armijo_fails scaler0 addr0 big1 ?mulr0 ?addr0 //.
by move=> k _; rewrite mxE mulr0.
Qed.

Lemma backtrack_zero_step (fuel : nat) (xk g : 'cV[R]_m) (t : R) :
  backtrack fcn fuel xk g 0 t = Starved.
Proof.
elim: fuel t => [|k IH] t //=.
by rewrite armijo_fails_zero_step /=; apply: IH.
Qed.


(** When the loop does stop, the test has succeeded at a [t] that is not
    below 0.1. *)
Lemma backtrack_exit (fuel : nat) (xk g dx : 'cV[R]_m) (t t' : R) :
  backtrack fcn fuel xk g dx t = Done t' ->
  ~~ armijo_fails fcn xk g dx t' /\ 1 / 10%:R <= t'.
Proof.
elim: fuel t => [|k IH] t //=.
case: ifP => [_ /IH //|/negbT]; rewrite negb_or -leNgt => /andP[nf ge] [<-].
by split.
Qed.

End LineSearch.

Section Steps.

Variable R : realFieldType.
Variables m N : nat.
Variable fcn : 'cV[R]_m -> 'cV[R]_N.
Variable lib : oracle R m N.

Implicit Types (self : newton_opt R m) (st : loop_state R m).

(** The body of the loop when the line search is switched off. *)
Lemma step_plain lf self st B :
  global_ self = false ->
  curvature lib self (cur_x st) (cur_B st) = Done B ->
  let dx := - (pinv lib B *m gradient fcn lib self (cur_x st)) in
  step fcn lib lf self st =
  Done (LoopState (cur_x st + dx) (cur_i st).+1
          (if method_ self is BFGS
           then bfgs_update B dx (bfgs_y lib (cur_x st + dx) (cur_x st))
           else B), dx).
Proof. by rewrite /step => -> ->. Qed.

(** At a point where the gradient vanishes the line search is entered with
    a zero step and never comes back. *)
Lemma step_search_stationary lf self st B :
  global_ self ->
  gradient fcn lib self (cur_x st) = 0 ->
  curvature lib self (cur_x st) (cur_B st) = Done B ->
  step fcn lib lf self st = Starved.
Proof.
by rewrite /step => -> -> -> /=; rewrite mulmx0 oppr0 backtrack_zero_step.
Qed.

(** Whatever the branch, a pass that returns has moved the iterate by the
    step it reports and has counted one iteration. *)
Lemma step_returns lf self st st' dx :
  step fcn lib lf self st = Done (st', dx) ->
  cur_x st' = cur_x st + dx /\ cur_i st' = (cur_i st).+1.
Proof.
rewrite /step; case: curvature => [B|e||] //=.
by case: (if global_ self then _ else _) => [d|e||] //= [<- <-].
Qed.

(** Gradient descent with a zero [alpha]: the division [1/self.alpha]
    raises when [alpha] is a Python number; when it is a numpy or
    TensorFlow scalar nothing is raised and the pass goes on with [Inf]
    and [NaN]. *)
Lemma step_zero_alpha lf self st :
  method_ self = GD -> alpha self = 0 ->
  step fcn lib lf self st =
  if alpha_kind self is PyNumber then Raised ZeroDivisionError else NotFinite.
Proof.
by rewrite /step /curvature => -> ->; rewrite eqxx; case: alpha_kind.
Qed.

(** For BFGS the curvature block hands on the matrix of the previous
    pass. *)
Lemma curvature_bfgs self xk (B : 'M[R]_m) :
  method_ self = BFGS -> curvature lib self xk B = Done B.
Proof. by rewrite /curvature => ->. Qed.

Lemma backtrack_not_raised fuel (xk g dx : 'cV[R]_m) (t : R) :
  ~~ raises (backtrack fcn fuel xk g dx t).
Proof. by elim: fuel t => [|k IH] t //=; case: ifP. Qed.

(** The line search returns or goes on for ever. *)
Lemma backtrack_outcome fuel (xk g dx : 'cV[R]_m) (t : R) :
  (exists t', backtrack fcn fuel xk g dx t = Done t')
  \/ backtrack fcn fuel xk g dx t = Starved.
Proof.
elim: fuel t => [|k IH] t /=; first by right.
by case: ifP => _; [apply: IH | left; exists t].
Qed.

Lemma step_bfgs_not_raised lf self st :
  method_ self = BFGS -> ~~ raises (step fcn lib lf self st).
Proof.
move=> meth; rewrite /step /curvature meth.
case: (cur_B st) => [B|] //=; case: (global_ self) => //=.
by case: (backtrack_outcome lf (cur_x st) (gradient fcn lib self (cur_x st))
  (- (pinv lib B *m gradient fcn lib self (cur_x st))) 1) => [[t ->]|->].
Qed.

Lemma optimize_loop_bfgs_not_raised lf fuel self max_it st :
  method_ self = BFGS ->
  ~~ raises (optimize_loop fcn lib lf fuel self max_it st).
Proof.
move=> meth; elim: fuel st => [|k IH] st //=.
case: step (step_bfgs_not_raised lf st meth) => [[st' dx]|e||] //= _.
by case: ifP.
Qed.

(** The BFGS update keeps a symmetric matrix symmetric. *)
Lemma bfgs_update_sym (B B' : 'M[R]_m) (s y : 'cV[R]_m) :
  B^T = B -> bfgs_update B s y = Finite B' -> B'^T = B'.
Proof.
move=> symB; rewrite /bfgs_update; case: ifP => // _ [<-].
by rewrite linearD linearB /= !linearZ /= !trmx_mul !trmxK symB.
Qed.

(** With two non-zero denominators the updated matrix is a matrix. *)
Lemma bfgs_update_finite (B : 'M[R]_m) (s y : 'cV[R]_m) :
  bfgs_c1 B s != 0 -> bfgs_c2 s y != 0 ->
  exists B', bfgs_update B s y = Finite B'.
Proof.
by rewrite /bfgs_update => /negbTE-> /negbTE->; eexists.
Qed.

Lemma step_bfgs_curvature lf self st st' dx :
  method_ self = BFGS ->
  step fcn lib lf self st = Done (st', dx) ->
  exists2 B, cur_B st = Finite B
    & cur_B st' = bfgs_update B dx (bfgs_y lib (cur_x st') (cur_x st)).
Proof.
move=> meth; rewrite /step /curvature meth.
case: (cur_B st) => [B|] //=.
by case: (if global_ self then _ else _) => [d|e||] //= [<- <-]; exists B.
Qed.

Lemma pass_symmetric lf self k st0 (B0 : 'M[R]_m) st dx :
  method_ self = BFGS ->
  cur_B st0 = Finite B0 -> B0^T = B0 ->
  nondegenerate fcn lib lf self k st0 ->
  pass fcn lib lf self k st0 = Done (st, dx) ->
  exists2 B, cur_B st = Finite B & B^T = B.
Proof.
move=> meth; elim: k st0 B0 => [|k IH] st0 B0 fin0 sym0 /=.
  move=> nd E; move: nd; rewrite E fin0 /= andbT => /andP[c1 c2].
  have [B1 fin1 upd] := step_bfgs_curvature meth E.
  move: fin1; rewrite fin0 => -[eB]; rewrite -eB in upd.
  have [B' fin'] := bfgs_update_finite c1 c2.
  by exists B'; rewrite ?upd //; apply: bfgs_update_sym fin'.
case E: step => [[st1 dx1]|e||] //=; rewrite fin0 => /and3P[c1 c2 nd].
have [B1 fin1 upd] := step_bfgs_curvature meth E.
move: fin1; rewrite fin0 => -[eB]; rewrite -eB in upd.
have [B' fin'] := bfgs_update_finite c1 c2.
apply: (IH st1 B') => //; first by rewrite upd.
exact: bfgs_update_sym fin'.
Qed.

(** *** The outer loop and the sequence of passes *)

Lemma optimize_loop_first_exit lf self max_it fuel st rep :
  optimize_loop fcn lib lf fuel self max_it st = Done rep ->
  exists k r,
    [/\ (k < fuel)%N,
        pass fcn lib lf self k st = Done r,
        exit_test lib self max_it r.1 r.2,
        forall j r', (j < k)%N -> pass fcn lib lf self j st = Done r' ->
                     ~~ exit_test lib self max_it r'.1 r'.2
      & rep = Report (cur_x r.1) (cur_i r.1) (max_it < cur_i r.1)%N].
Proof.
elim: fuel st => [|f IH] st //=.
case E: step => [r|e||] //=; case X: exit_test.
  by case=> <-; exists 0%N, r; split.
case/IH=> k [r' [kf pk xk early ->]]; exists k.+1, r'; split=> //=.
  by rewrite E.
case=> [|j] r'' /=; first by rewrite E => _ [<-]; rewrite X.
by rewrite E /= ltnS; apply: early.
Qed.


(** The count after pass [k] is [k+1] more than at the start. *)
Lemma pass_count lf self k st r :
  pass fcn lib lf self k st = Done r -> cur_i r.1 = (cur_i st + k.+1)%N.
Proof.
elim: k st => [|k IH] st /=.
  by case: r => st' dx /step_returns[_ ->]; rewrite addn1.
case E: step => [[st1 dx1]|e||] //= /IH->.
by case: (step_returns E) => _ ->; rewrite addSnnS.
Qed.


Lemma optimize_loopS lf fuel self max_it st :
  optimize_loop fcn lib lf fuel.+1 self max_it st =
  (r <- step fcn lib lf self st ;;
   if exit_test lib self max_it r.1 r.2
   then Done (Report (cur_x r.1) (cur_i r.1) (max_it < cur_i r.1)%N)
   else optimize_loop fcn lib lf fuel self max_it r.1).
Proof. by []. Qed.

(** A run of gradient descent with a zero [alpha] stops in its first pass:
    with [ZeroDivisionError] when [alpha] is a Python number; when it is a
    numpy or TensorFlow scalar nothing is raised, and what the run does
    with the [Inf] and [NaN] of its matrix [B] is not followed. *)
Lemma zero_alpha_run lf fuel x0 glob e max_it :
  optimize fcn lib lf fuel.+1 (init x0 GD glob 0 e) max_it
  = Raised ZeroDivisionError
  /\ optimize fcn lib lf fuel.+1 (init_scalar x0 GD glob 0 e) max_it
     = NotFinite.
Proof. by rewrite /optimize !optimize_loopS !step_zero_alpha. Qed.

Lemma pass_first_step lf self k st r :
  pass fcn lib lf self k st = Done r ->
  exists r1, step fcn lib lf self st = Done r1 /\ (k = 0%N -> r1 = r).
Proof.
case: k => [|k] /=; first by move=> E; exists r.
by case: step => [r1|e||] //= _; exists r1.
Qed.



(** A multiple [(1/a) I] of the identity has no other generalised inverse
    than [a I]. *)
Lemma scaled_identity_inverse (a : R) (X : 'M[R]_m) :
  a != 0 ->
  let B := (1 / a) *: 1%:M in
  B *m X *m B = B -> X = a *: 1%:M.
Proof.
move=> a0 /=; rewrite -scalemxAl mul1mx -scalemxAr mulmx1 div1r.
move/(scalerI (invr_neq0 a0))/(congr1 (fun M => a *: M)).
by rewrite scalerA mulfV // scale1r.
Qed.

End Steps.


(** *** Statements about [optimize] *)

Section OptimizerClaims.

Variable R : realFieldType.
Variables m N : nat.
Variable fcn : 'cV[R]_m -> 'cV[R]_N.
Variable lib : oracle R m N.

(** C9.  Gradient descent with a non-zero [alpha] and no line search takes
    the fixed step of gradient descent: the curvature matrix is
    [B = (1/alpha) I] and, [pinv B] being a generalised inverse of [B], the
    step [dx = - pinv B * g] is [- alpha * g], so the iterate moves from
    [x] to [x - alpha * g]; this for whatever gradient [g] the
    differentiation oracle returns. *)
Theorem gradient_descent_fixed_step lf x0 a e (st : loop_state R m) :
  a != 0 ->
  let self := init x0 GD false a e in
  let B := (1 / a) *: 1%:M in
  let g := (jac_sq lib (cur_x st))^T in
  B *m pinv lib B *m B = B ->
  step fcn lib lf self st =
  Done (LoopState (cur_x st - a *: g) (cur_i st).+1 B, - (a *: g)).
Proof.
move=> a0 self B g /(scaled_identity_inverse a0) pB.
have cB : curvature lib self (cur_x st) (cur_B st) = Done B.
  by rewrite /curvature /= (negbTE a0).
by rewrite (step_plain fcn lf _ cB) //= pB -scalemxAl mul1mx.
Qed.


(** C10, as amended.  No termination condition is tested before the first
    pass through the body has moved the iterate to [x0 + dx]: a run that
    returns has made at least one pass, and a run that returns after its
    first pass returns [x0 + dx], which differs from [x0] whenever [dx] is
    not zero, whatever the tolerance. *)
Theorem optimize_runs_one_pass_first lf fuel (self : newton_opt R m)
  max_it rep :
  optimize fcn lib lf fuel self max_it = Done rep ->
  exists st1 dx1,
    [/\ step fcn lib lf self (start self) = Done (st1, dx1),
        cur_x st1 = x self + dx1,
        (0 < iterations rep)%N
      & iterations rep = 1%N ->
        final_x rep = x self + dx1 /\ (dx1 != 0 -> final_x rep != x self)].
Proof.
case/optimize_loop_first_exit=> k [r [_ pk _ _ ->]] /=.
have ik := pass_count pk; rewrite add0n in ik.
have [[st1 dx1] [E k0]] := pass_first_step pk.
have [x1 _] := step_returns E.
exists st1, dx1; split=> //; first by rewrite ik.
rewrite ik => -[/k0 r1]; rewrite -r1 /= x1; split=> // dx_n0.
by rewrite -subr_eq0 addrC addKr.
Qed.

(** C7.  For BFGS the curvature matrix starts as the identity and is
    symmetric after every pass of a run whose updates all have non-zero
    denominators [s'Bs] and [s'y]: after such a pass it is a matrix, and
    equal to its transpose. *)
Theorem bfgs_curvature_symmetric lf x0 glob a e :
  let self := init x0 BFGS glob a e in
  cur_B (start self) = 1%:M /\
  forall k st dx,
    nondegenerate fcn lib lf self k (start self) ->
    pass fcn lib lf self k (start self) = Done (st, dx) ->
    exists2 B : 'M[R]_m, cur_B st = B & B^T = B.
Proof.
split=> // k st dx nd pk.
by apply: (pass_symmetric _ _ _ nd pk) => //=; apply: trmx1.
Qed.

(** C2, as amended.  For BFGS the update is carried out at every pass
    without any test of its denominators.  A pass without line search that
    starts from the iterate [xk] and the matrix [B] takes the step
    [dx = - pinv B * g], moves to [xk + dx], and leaves for the next pass
    the matrix [B - (Bs)(Bs)'/c1 + yy'/c2] with [s = dx],
    [c1 = s'Bs] and [c2 = s'y]; when [c1] or [c2] is zero the divisions
    are done all the same and leave [Inf] and [NaN] in it.  Nothing is
    raised or reported: the run goes on to its exit test, and returns
    there if the test succeeds.  No BFGS run raises an error, with or
    without line search. *)
Theorem bfgs_update_is_unconditional lf x0 a e fuel max_it
  (xk : 'cV[R]_m) (i : nat) (B : 'M[R]_m) :
  let self := init x0 BFGS false a e in
  let dx := - (pinv lib B *m (jac_sq lib xk)^T) in
  let y := (jac_sq lib (xk + dx) - jac_sq lib xk)^T in
  let c1 := (dx^T *m B *m dx) 0 0 in
  let c2 := (dx^T *m y) 0 0 in
  let B' := if (c1 == 0) || (c2 == 0) then NonFinite
            else Finite (B - (1 / c1) *: (B *m dx *m (B *m dx)^T)
                         + (1 / c2) *: (y *m y^T)) in
  let st' := LoopState (xk + dx) i.+1 B' in
  [/\ step fcn lib lf self (LoopState xk i B) = Done (st', dx),
      optimize_loop fcn lib lf fuel.+1 self max_it (LoopState xk i B) =
      (if (norm lib dx < e) || (max_it < i.+1)%N
       then Done (Report (xk + dx) i.+1 (max_it < i.+1)%N)
       else optimize_loop fcn lib lf fuel self max_it st')
    & forall glob fuel' max_it',
        ~~ raises (optimize fcn lib lf fuel' (init x0 BFGS glob a e) max_it')].
Proof.
move=> self dx y c1 c2 B' st'.
have E : step fcn lib lf self (LoopState xk i B) = Done (st', dx).
  by rewrite (@step_plain _ _ _ fcn lib lf self (LoopState xk i B) B).
split; first exact: E.
  by rewrite optimize_loopS E.
by move=> glob fuel' max_it'; apply: optimize_loop_bfgs_not_raised.
Qed.

End OptimizerClaims.

(** *** Sums of products of entries *)

Section Dots.

Variable R : realFieldType.

(** [tf.reduce_sum(tf.multiply(u, v))] is the product of a row by a
    column. *)
Lemma dotE (k : nat) (u v : 'cV[R]_k) :
  \sum_i u i 0 * v i 0 = (u^T *m v) 0 0.
Proof. by rewrite mxE; apply: eq_bigr => i _; rewrite mxE. Qed.

Lemma dot_ge0 (k : nat) (u : 'cV[R]_k) : 0 <= \sum_i u i 0 * u i 0.
Proof. by apply: sumr_ge0 => i _; rewrite -expr2 sqr_ge0. Qed.

Lemma dot_eq0 (k : nat) (u : 'cV[R]_k) :
  (\sum_i u i 0 * u i 0 == 0) = (u == 0).
Proof.
have nn (i : 'I_k) : true -> 0 <= u i 0 * u i 0.
  by move=> _; rewrite -expr2 sqr_ge0.
rewrite psumr_eq0 //.
apply/allP/eqP => [z|-> i _]; last by rewrite /= !mxE mulr0.
apply/colP => i; rewrite [RHS]mxE.
by have := z i (mem_index_enum i); rewrite /= mulf_eq0 orbb => /eqP.
Qed.

End Dots.

(** *** Two BFGS passes on a sum of squares

    [fcn] being such that the squared error has the Jacobian [2x'], and
    [pinv] being the pseudo-inverse: from [u] and the identity the first
    pass steps by [-2u] to [-u] and leaves the matrix [I + uu'/(u'u)]; the
    second pass steps by [u] to the minimiser. *)

Section TwoPasses.

Variable R : realFieldType.
Variables m N : nat.
Variable fcn : 'cV[R]_m -> 'cV[R]_N.
Variable lib : oracle R m N.
Variable u : 'cV[R]_m.

Hypothesis jacE : forall x, jac_sq lib x = 2%:R *: x^T.
Hypothesis pinvE : forall B, pinv lib B = pinvmx B.
Hypothesis u0 : u != 0.

Let q : R := \sum_i u i 0 * u i 0.
Let B1 : 'M[R]_m := 1%:M + q^-1 *: (u *m u^T).

Lemma q_neq0 : q != 0.
Proof. by rewrite /q dot_eq0. Qed.

Lemma utu : u^T *m u = q%:M.
Proof. by rewrite [LHS]mx11_scalar -dotE. Qed.

Lemma B1u : B1 *m u = 2%:R *: u.
Proof.
rewrite /B1 mulmxDl mul1mx -scalemxAl -mulmxA utu mul_mx_scalar scalerA.
by rewrite mulVf ?q_neq0 // scale1r -mulr2n scaler_nat.
Qed.

Lemma B1_sym : B1^T = B1.
Proof. by rewrite /B1 linearD /= trmx1 linearZ /= trmx_mul trmxK. Qed.

Lemma B1_unit : B1 \in unitmx.
Proof.
suff /mulmx1_unit[] : B1 *m (1%:M - (2%:R * q)^-1 *: (u *m u^T)) = 1%:M by [].
rewrite mulmxBr mulmx1 -scalemxAr mulmxA B1u -!scalemxAl scalerA.
have -> : (2%:R * q)^-1 * 2%:R = q^-1.
  by rewrite invfM mulrAC mulVf ?pnatr_eq0 // mul1r.
by rewrite /B1 -addrA subrr addr0.
Qed.

Let dx0 : 'cV[R]_m := - (2%:R *: u).

Lemma dot_dx0 : \sum_i dx0 i 0 * dx0 i 0 = 4%:R * q.
Proof.
rewrite /q mulr_sumr; apply: eq_bigr => i _; rewrite !mxE.
by ring.
Qed.

Lemma first_update : bfgs_update 1%:M dx0 (2%:R *: dx0) = Finite B1.
Proof.
have c1 : bfgs_c1 1%:M dx0 = 4%:R * q by rewrite /bfgs_c1 mulmx1 -dotE dot_dx0.
have c2 : bfgs_c2 dx0 (2%:R *: dx0) = 8%:R * q.
  rewrite /bfgs_c2 -scalemxAr mxE -dotE dot_dx0 mulrA -natrM.
  by [].
have dd : dx0 *m dx0^T = 4%:R *: (u *m u^T).
  rewrite /dx0 linearN /= mulNmx mulmxN opprK linearZ /=.
  by rewrite -scalemxAl -scalemxAr scalerA -natrM.
rewrite /bfgs_update c1 c2 !mulf_eq0 !pnatr_eq0 /= (negbTE q_neq0) /=.
have yy : (2%:R *: dx0) *m (2%:R *: dx0)^T = 16%:R *: (u *m u^T).
  rewrite [(_ *: _)^T]linearZ /= -scalemxAl -scalemxAr dd !scalerA -!natrM.
  by [].
congr Finite; rewrite mul1mx dd yy !scalerA.
rewrite /B1 -addrA [- _ + _]addrC -scalerBl; congr (_ + _ *: _).
have q0 := q_neq0.
by field.
Qed.

Lemma bfgs_gradient a e x :
  gradient fcn lib (init u BFGS false a e) x = 2%:R *: x.
Proof. by rewrite /gradient /= jacE linearZ /= trmxK. Qed.

Lemma bfgs_yE (x' x : 'cV[R]_m) : bfgs_y lib x' x = 2%:R *: (x' - x).
Proof. by rewrite /bfgs_y !jacE -scalerBr -linearB /= linearZ /= trmxK. Qed.

Lemma first_pass lf a e :
  step fcn lib lf (init u BFGS false a e) (start (init u BFGS false a e))
  = Done (LoopState (u + dx0) 1 B1, dx0).
Proof.
rewrite (@step_plain _ _ _ fcn lib lf _ _ 1%:M) //=.
rewrite bfgs_gradient pinvE pinvmxE ?unitmx1 // invmx1 mul1mx -/dx0.
congr (Done (LoopState _ _ _, _)).
by rewrite bfgs_yE addrC addKr first_update.
Qed.

Lemma second_pass lf a e :
  step fcn lib lf (init u BFGS false a e) (LoopState (u + dx0) 1 B1)
  = Done (LoopState (u + dx0 + u) 2
            (bfgs_update B1 u (2%:R *: u)), u).
Proof.
have x1 : u + dx0 = - u.
  by rewrite /dx0 scaler_nat mulr2n opprD addrA subrr sub0r.
have inv : pinv lib B1 *m (2%:R *: (u + dx0)) = - u.
  rewrite pinvE pinvmxE ?B1_unit // x1 scalerN -B1u -mulmxN.
  by rewrite mulKmx ?B1_unit.
rewrite (@step_plain _ _ _ fcn lib lf _ _ B1) //=.
rewrite bfgs_gradient inv opprK; congr (Done (LoopState _ _ _, _)).
by rewrite bfgs_yE addrC addKr.
Qed.

Lemma nondegenerate0 lf (self : newton_opt R m) st r :
  step fcn lib lf self st = Done r ->
  nondegenerate fcn lib lf self 0 st =
  (if cur_B st is Finite B then bfgs_c1 B r.2 != 0 else false)
  && (bfgs_c2 r.2 (bfgs_y lib (cur_x r.1) (cur_x st)) != 0).
Proof. by move=> /= ->; rewrite andbT. Qed.

Lemma nondegenerateS lf (self : newton_opt R m) k st r :
  step fcn lib lf self st = Done r ->
  nondegenerate fcn lib lf self k.+1 st =
  [&& (if cur_B st is Finite B then bfgs_c1 B r.2 != 0 else false),
      bfgs_c2 r.2 (bfgs_y lib (cur_x r.1) (cur_x st)) != 0
    & nondegenerate fcn lib lf self k r.1].
Proof. by move=> /= ->. Qed.

Lemma bfgs_two_passes lf a e :
  let self := init u BFGS false a e in
  [/\ nondegenerate fcn lib lf self 1 (start self),
      pass fcn lib lf self 1 (start self)
      = Done (LoopState (u + dx0 + u) 2 (bfgs_update B1 u (2%:R *: u)), u)
    & B1^T = B1].
Proof.
move=> self.
have E1 := first_pass lf a e; have E2 := second_pass lf a e.
have two : 2%:R * q != 0 by rewrite mulf_neq0 ?pnatr_eq0 ?q_neq0.
have four : 4%:R * q != 0 by rewrite mulf_neq0 ?pnatr_eq0 ?q_neq0.
split; last exact: B1_sym.
  rewrite (nondegenerateS _ E1) (nondegenerate0 E2) /=.
  have -> : bfgs_y lib (u + dx0) u = 2%:R *: dx0.
    by rewrite bfgs_yE addrAC subrr add0r.
  have -> : bfgs_y lib (u + dx0 + u) (u + dx0) = 2%:R *: u.
    by rewrite bfgs_yE addrAC subrr add0r.
  apply/and4P; split.
  - by rewrite /bfgs_c1 mulmx1 -dotE dot_dx0.
  - rewrite /bfgs_c2 -scalemxAr mxE -dotE dot_dx0.
    by apply: mulf_neq0 => //; rewrite pnatr_eq0.
  - by rewrite /bfgs_c1 -mulmxA B1u -scalemxAr mxE -dotE.
  by rewrite /bfgs_c2 -scalemxAr mxE -dotE.
have pS : pass fcn lib lf self 1 (start self) =
          (r <- step fcn lib lf self (start self) ;; pass fcn lib lf self 0 r.1).
  by [].
by rewrite pS E1 bind_Done [pass _ _ _ _ 0 _]/= E2.
Qed.

End TwoPasses.

(** *** The one-parameter problem *)

Section ParabolaRuns.

Import Parabola.

Local Notation self_ := (newton_opt rat 1).
Local Notation state_ := (loop_state rat 1).

Lemma gradient_sq (self : self_) (xk : 'cV[rat]_1) :
  gradient fcn lib self xk =
  if method_ self is (GN | LM) then xk else 2%:R *: xk.
Proof.
rewrite /gradient /fcn /=.
by case: (method_ self); rewrite ?trmx1 ?mul1mx // linearZ /= trmxK.
Qed.

Lemma gradient_at_0 (self : self_) : gradient fcn lib self 0 = 0.
Proof. by rewrite gradient_sq; case: (method_ self); rewrite ?scaler0. Qed.

(** Gradient descent with [alpha = 1] on the parabola: [x - 2x = -x]. *)
Lemma gd_reflects lf x0 e (st : state_) :
  step fcn lib lf (init x0 GD false 1 e) st =
  Done (LoopState (- cur_x st) (cur_i st).+1 1%:M, - (2%:R *: cur_x st)).
Proof.
have cB : curvature lib (init x0 GD false 1 e) (cur_x st) (cur_B st)
          = Done 1%:M.
  by rewrite /curvature /= divr1 scale1r.
rewrite (step_plain fcn lf _ cB) //= pinvmxE ?unitmx1 // invmx1 mul1mx.
rewrite gradient_sq /=; congr (Done (LoopState _ _ _, _)).
by rewrite scaler_nat mulr2n opprD addrA subrr sub0r.
Qed.

Lemma gd_two_passes lf (x0 : 'cV[rat]_1) (e : rat) :
  (`|(- (2%:R *: x0)) 0 0| < e) = false ->
  optimize fcn lib lf 2 (init x0 GD false 1 e) 1 = Done (Report x0 2 true).
Proof.
move=> far; rewrite /optimize optimize_loopS gd_reflects bind_Done.
rewrite {1}/exit_test [X in if X then _ else _]/= far optimize_loopS.
by rewrite gd_reflects bind_Done /exit_test /= orbT opprK.
Qed.

(** The sufficient-decrease test on the parabola, entry by entry. *)
Lemma armijo_parabola (xk g dx : 'cV[rat]_1) (t : rat) :
  armijo_fails fcn xk g dx t =
  (xk 0 0 * xk 0 0 + gamma_ rat * t * (g 0 0 * dx 0 0)
   <= (xk 0 0 + t * dx 0 0) * (xk 0 0 + t * dx 0 0)).
Proof. by rewrite /armijo_fails /f_sq_err /fcn !big_ord1 !mxE. Qed.



Lemma first_step_nonzero : - (2%:R *: (1%:M : 'cV[rat]_1)) != 0.
Proof.
apply/eqP => /matrixP/(_ 0 0); rewrite !mxE => /eqP.
by vm_compute.
Qed.

End ParabolaRuns.

(** C1, failing run.  With the line search switched on and the iterate at
    the minimiser of the parabola, the gradient and the step are zero, the
    sufficient-decrease test fails for every [t], and the inner loop is
    never left: however much fuel is given, [optimize] does not return.
    Neither does the floor stop it, see [backtrack_below_floor]. *)
Theorem armijo_search_never_returns (meth : method) (lf fuel max_it : nat)
  (e : rat) :
  optimize Parabola.fcn Parabola.lib lf fuel (init 0 meth true 1 e) max_it
  = Starved.
Proof.
case: fuel => [|fuel] //; rewrite /optimize /=.
have [B cB] : exists B,
    curvature Parabola.lib (init 0 meth true 1 e) 0 1%:M = Done B.
  by rewrite /curvature; case: meth => /=; eexists.
by rewrite (@step_search_stationary _ _ _ Parabola.fcn Parabola.lib lf _ _ B)
     //= gradient_at_0.
Qed.

(** C2, counterexample.  BFGS started at the minimiser of the parabola takes
    a zero step, so both denominators of the update are zero and the
    updated matrix holds [Inf] and [NaN]; the run reports no error: it
    returns after one pass, without warning. *)
Lemma bfgs_degenerate_update_goes_unreported :
  let self := init (0 : 'cV[rat]_1) BFGS false 1 (1 / 1000%:R) in
  exists st1,
    [/\ step Parabola.fcn Parabola.lib 0 self (start self) = Done (st1, 0),
        bfgs_c1 (1%:M : 'M[rat]_1) (0 : 'cV[rat]_1) = 0,
        bfgs_c2 0 (bfgs_y Parabola.lib (cur_x st1) (cur_x (start self))) = 0,
        cur_B st1 = NonFinite
      & optimize Parabola.fcn Parabola.lib 0 1 self 100
        = Done (Report 0 1 false)].
Proof.
move=> self.
have c1 : bfgs_c1 (1%:M : 'M[rat]_1) (0 : 'cV[rat]_1) = 0.
  by rewrite /bfgs_c1 mulmx0 mxE.
have upd : bfgs_update 1%:M 0 (bfgs_y Parabola.lib 0 (0 : 'cV[rat]_1))
           = NonFinite.
  by rewrite /bfgs_update c1 eqxx.
have E : step Parabola.fcn Parabola.lib 0 self (start self) =
         Done (LoopState 0 1 NonFinite, 0).
  rewrite (@step_plain _ _ _ Parabola.fcn Parabola.lib 0 self (start self)
             1%:M) //=.
  by rewrite gradient_at_0 mulmx0 oppr0 addr0 upd.
exists (LoopState 0 1 NonFinite); split.
- exact: E.
- exact: c1.
- by rewrite /bfgs_c2 trmx0 mul0mx mxE.
- by [].
rewrite /optimize optimize_loopS E bind_Done /exit_test /=.
by rewrite mxE normr0 divr_gt0 ?ltr0n.
Qed.


(** C10, counterexample.  Gradient descent with [alpha = 1] on the parabola,
    started at 1 with [max_it = 1]: the first step is [-2], not zero, the
    second step is [+2], and the run returns its starting point. *)
Lemma optimize_may_return_initial_point :
  let self := init (1%:M : 'cV[rat]_1) GD false 1 (1 / 1000%:R) in
  exists st1 dx1,
    [/\ step Parabola.fcn Parabola.lib 0 self (start self) = Done (st1, dx1),
        dx1 != 0
      & optimize Parabola.fcn Parabola.lib 0 2 self 1
        = Done (Report (x self) 2 true)].
Proof.
move=> self; exists (LoopState (- 1%:M) 1 1%:M), (- (2%:R *: 1%:M)).
split; [exact: gd_reflects | exact: first_step_nonzero |].
by apply: gd_two_passes; rewrite !mxE; vm_compute.
Qed.

(** C9, witness: [alpha = 1/2] on the parabola. *)
Lemma gradient_descent_fixed_step_witness :
  let self := init (1%:M : 'cV[rat]_1) GD false (1 / 2%:R) (1 / 1000%:R) in
  let g := (jac_sq Parabola.lib (cur_x (start self)))^T in
  step Parabola.fcn Parabola.lib 0 self (start self) =
  Done (LoopState (1%:M - (1 / 2%:R) *: g) 1 ((1 / (1 / 2%:R)) *: 1%:M),
        - ((1 / 2%:R) *: g)).
Proof.
apply: (@gradient_descent_fixed_step _ 1 1 Parabola.fcn Parabola.lib 0 1%:M
          (1 / 2%:R) (1 / 1000%:R) (LoopState 1%:M 0 1%:M)).
  by vm_compute.
exact: (mulmxKpV (submx_refl _)).
Defined.

(** C7, witness: the first two BFGS passes on the two-parameter problem,
    started at (1, 1).  The first pass steps by (-2, -2) and leaves the
    matrix [I + x0 x0'/2], which has 1/2 off the diagonal; the second
    pass steps by (1, 1) and updates that matrix.  The four denominators
    are 8, 16, 4 and 4. *)
Lemma bfgs_curvature_symmetric_witness :
  let self := init Bowl.x0 BFGS false 1 (1 / 1000%:R) in
  exists st2,
    [/\ nondegenerate Bowl.fcn Bowl.lib 0 self 1 (start self),
        pass Bowl.fcn Bowl.lib 0 self 1 (start self) = Done (st2, Bowl.x0)
      & exists2 B : 'M[algR]_2, cur_B st2 = B & B^T = B].
Proof.
move=> self.
have u0 : Bowl.x0 != 0.
  by apply/eqP => /colP/(_ 0); rewrite !mxE => /eqP; rewrite oner_eq0.
have [nd pk _] :=
  @bfgs_two_passes _ 2 2 Bowl.fcn Bowl.lib Bowl.x0 (fun _ => erefl)
    (fun _ => erefl) u0 0 1 (1 / 1000%:R).
eexists; split; [exact: nd | exact: pk |].
exact: (proj2 (@bfgs_curvature_symmetric _ 2 2 Bowl.fcn Bowl.lib 0
                 Bowl.x0 false 1 (1 / 1000%:R)) 1%N _ _ nd pk).
Defined.


(** C10, witness: with [max_it = 0] the run returns after its first pass. *)
Lemma optimize_runs_one_pass_first_witness :
  let self := init (1%:M : 'cV[rat]_1) GD false 1 (1 / 1000%:R) in
  optimize Parabola.fcn Parabola.lib 0 1 self 0
  = Done (Report (- 1%:M) 1 true) /\
  exists st1 dx1,
    [/\ step Parabola.fcn Parabola.lib 0 self (start self) = Done (st1, dx1),
        cur_x st1 = x self + dx1,
        (0 < 1)%N
      & 1%N = 1%N ->
        - 1%:M = x self + dx1 /\ (dx1 != 0 -> - 1%:M != x self)].
Proof.
move=> self.
have E : optimize Parabola.fcn Parabola.lib 0 1 self 0
         = Done (Report (- 1%:M) 1 true).
  by rewrite /optimize optimize_loopS gd_reflects bind_Done /exit_test /= orbT.
split=> //.
exact: (@optimize_runs_one_pass_first _ 1 1 Parabola.fcn Parabola.lib 0 1
          self 0 _ E).
Defined.

End NewtonFacts.

(** * Properties of the QP solver *)

Module QPFacts.

Import QPSolver Cases.

Section Indices.

Variables k c : nat.

Lemma before_lt (j : 'I_(minn k c)) : (before j < k)%N.
Proof. by rewrite /= (leq_trans (ltn_ord j)) ?geq_minl. Qed.

Lemma after_ge (j : 'I_(c - k)) : (k <= after j)%N.
Proof. by rewrite /= leq_addr. Qed.

Lemma before_inj : injective (@before k c).
Proof. by move=> i j /(congr1 val) /= /val_inj. Qed.

Lemma after_inj : injective (@after k c).
Proof. by move=> i j /(congr1 val) /= /addnI /val_inj. Qed.

Lemma before_after (i : 'I_(minn k c)) (j : 'I_(c - k)) :
  (before i == after j) = false.
Proof.
apply/eqP => /(congr1 val) /= e.
by have := before_lt i; rewrite /= e ltnNge leq_addr.
Qed.

(** Every index is kept by exactly one of the slices [:k] and [k:]. *)
Lemma split_index (i : 'I_c) :
  (exists j : 'I_(minn k c), before j = i) \/
  (exists j : 'I_(c - k), after j = i).
Proof.
case: (ltnP i k) => ik; [left | right].
  have lt : (i < minn k c)%N by rewrite leq_min ik ltn_ord.
  by exists (Ordinal lt); apply: val_inj.
have lt : (i - k < c - k)%N.
  by rewrite ltn_sub2r // (leq_ltn_trans ik).
by exists (Ordinal lt); apply: val_inj; rewrite /= subnKC.
Qed.

End Indices.

Section Factors.

Variable R : realFieldType.
Variables n m : nat.
Variable q : 'M[R]_n.
Variable r : 'M[R]_(n, m).

Hypothesis orthogonal : q^T *m q = 1%:M.
Hypothesis triangular : forall (i : 'I_n) (j : 'I_m), (j < i)%N -> r i j = 0.

Let Y := cols_upto m q.
Let Z := cols_from m q.
Let Rp := rows_upto m r.

Lemma sub_gram (k1 k2 : nat) (f : 'I_k1 -> 'I_n) (g : 'I_k2 -> 'I_n) :
  (colsub f q)^T *m colsub g q = mxsub f g (q^T *m q).
Proof.
apply/matrixP => i j; rewrite !mxE; apply: eq_bigr => k _.
by rewrite !mxE.
Qed.

Lemma YtY : Y^T *m Y = 1%:M.
Proof.
rewrite /Y /cols_upto sub_gram orthogonal; apply/matrixP => i j.
by rewrite !mxE (inj_eq (@before_inj m n)).
Qed.

Lemma ZtZ : Z^T *m Z = 1%:M.
Proof.
rewrite /Z /cols_from sub_gram orthogonal; apply/matrixP => i j.
by rewrite !mxE (inj_eq (@after_inj m n)).
Qed.

Lemma YtZ : Y^T *m Z = 0.
Proof.
rewrite /Y /Z /cols_upto /cols_from sub_gram orthogonal.
by apply/matrixP => i j; rewrite !mxE before_after.
Qed.

Lemma ZtY : Z^T *m Y = 0.
Proof. by rewrite -[Z^T *m Y]trmxK trmx_mul trmxK YtZ trmx0. Qed.

(** The rows of [r] below the [m]-th are zero, so the product of the
    complete factors is the product of the thin ones. *)
Lemma Y_Rp : Y *m Rp = q *m r.
Proof.
apply/matrixP => i j; rewrite !mxE.
have -> : \sum_k' Y i k' * Rp k' j =
          \sum_(k' < minn m n) q i (before k') * r (before k') j.
  by apply: eq_bigr => k' _; rewrite !mxE.
rewrite -[LHS](@big_ord_narrow _ _ _ _ _ (fun k : 'I_n => q i k * r k j)
                  (geq_minr m n)).
rewrite [RHS](bigID (fun k : 'I_n => (k < minn m n)%N)) /=.
rewrite [X in _ + X]big1 ?addr0 //.
move=> k; rewrite -leqNgt geq_min.
case/orP=> [mk|]; last by rewrite leqNgt ltn_ord.
by rewrite triangular ?mulr0 // (leq_trans (ltn_ord j)).
Qed.

Lemma colsub_tr_mul (k1 : nat) (f : 'I_k1 -> 'I_n) (w : 'cV[R]_n) :
  (colsub f q)^T *m w = rowsub f (q^T *m w).
Proof.
apply/matrixP => i j; rewrite !mxE; apply: eq_bigr => k _.
by rewrite !mxE.
Qed.

(** A vector orthogonal to the columns of [Y] and of [Z] is zero. *)
Lemma split_zero (w : 'cV[R]_n) : Y^T *m w = 0 -> Z^T *m w = 0 -> w = 0.
Proof.
rewrite /Y /Z /cols_upto /cols_from !colsub_tr_mul => yw zw.
have qqT : q *m q^T = 1%:M by apply: mulmx1C.
rewrite -[w]mul1mx -qqT -mulmxA.
suff -> : q^T *m w = 0 by rewrite mulmx0.
apply/matrixP => i j; rewrite [RHS]mxE.
case: (split_index m i) => -[k' <-].
  by move/matrixP/(_ k' j): yw; rewrite !mxE.
by move/matrixP/(_ k' j): zw; rewrite !mxE.
Qed.

(** If the factorised matrix has independent columns, the triangular
    block has independent rows. *)
Lemma Rp_free (A : 'M[R]_(m, n)) :
  q *m r = A^T -> row_free A -> row_free Rp.
Proof.
move=> qrA; rewrite /row_free => /eqP rkA.
have le1 : (\rank A^T <= \rank r)%N by rewrite -qrA mxrankS ?submxMl.
have le2 : (\rank r <= \rank Rp)%N.
  apply: mxrankS; apply/row_subP => i.
  case: (split_index m i) => -[k' <-].
    by rewrite -row_rowsub row_sub.
  suff -> : row (after k') r = 0 by apply: sub0mx.
  apply/rowP => j; rewrite !mxE triangular //.
  by rewrite (leq_trans (ltn_ord j)) ?after_ge.
rewrite mxrank_tr rkA in le1.
rewrite eqn_leq rank_leq_row /=.
by rewrite (leq_trans (geq_minl m n)) // (leq_trans le1).
Qed.

End Factors.

Section Inverses.

Variable R : realFieldType.

(** A square matrix with a trivial kernel on columns is invertible. *)
Lemma columns_inj_unit (k : nat) (M : 'M[R]_k) :
  (forall z : 'cV[R]_k, M *m z = 0 -> z = 0) -> M \in unitmx.
Proof.
move=> inj; rewrite -unitmx_tr -row_free_unit -kermx_eq0.
apply/eqP/row_matrixP => i; rewrite row0.
apply: trmx_inj; rewrite trmx0; apply: inj.
have : row i (kermx M^T) *m M^T = 0 by rewrite -row_mul mulmx_ker row0.
by move/(congr1 trmx); rewrite trmx_mul trmxK trmx0.
Qed.

Lemma definite_inj (k : nat) (M : 'M[R]_k) :
  positive_definite M -> forall z : 'cV[R]_k, M *m z = 0 -> z = 0.
Proof.
move=> pd z Mz; apply/eqP/negbNE/negP => /pd.
by rewrite -mulmxA Mz mulmx0 mxE ltxx.
Qed.

Lemma unit_solution (k : nat) (M : 'M[R]_k) (v : 'cV[R]_k) :
  M \in unitmx -> M *m (invmx M *m v) = v.
Proof. by move=> uM; rewrite mulmxA mulmxV // mul1mx. Qed.

Lemma free_solution (k l : nat) (M : 'M[R]_(k, l)) (v : 'cV[R]_k) :
  row_free M -> exists x0, M *m x0 = v.
Proof.
by case/row_freeP=> C MC; exists (C *m v); rewrite mulmxA MC mul1mx.
Qed.

Lemma free_tr_inj (k l : nat) (M : 'M[R]_(k, l)) (v : 'cV[R]_k) :
  row_free M -> M^T *m v = 0 -> v = 0.
Proof.
case/row_freeP=> C MC Mv.
by rewrite -[v]mul1mx -[1%:M]trmx1 -MC trmx_mul -mulmxA Mv mulmx0.
Qed.

End Inverses.

Section Solver.

Variable R : realFieldType.
Variable np : linalg R.
Variables n m : nat.
Variable B : 'M[R]_n.
Variable c : 'cV[R]_n.
Variable A : 'M[R]_(m, n).
Variable b : 'cV[R]_m.

Hypothesis exact : lstsq_exact np.
Hypothesis factored : complete_qr A^T (qr np A^T).
Hypothesis independent : row_free A.

Let env := Globals n m.
Let Y := ns_Y np env A.
Let Z := ns_Z np env A.
Let Rp := ns_Rp np env A.
Let x := ns_x np env B c A b.
Let lam := ns_lambda np env B c A b.

Lemma q_orthogonal : (ns_q np A)^T *m ns_q np A = 1%:M.
Proof. by case: factored. Qed.

Lemma thin_factors : A^T = Y *m Rp.
Proof.
case: factored => qrA _ tri.
by rewrite /Y /Rp /ns_Y /ns_Rp Y_Rp.
Qed.

Lemma A_thin : A = Rp^T *m Y^T.
Proof. by rewrite -trmx_mul -thin_factors trmxK. Qed.

Lemma A_Z : A *m Z = 0.
Proof. by rewrite A_thin -mulmxA (@YtZ _ _ m _ q_orthogonal) mulmx0. Qed.

Lemma Rp_row_free : row_free Rp.
Proof. by case: factored => qrA _ tri; apply: (Rp_free tri qrA independent). Qed.

Lemma A_x_special : A *m ns_x_special np A b = - b.
Proof.
by have [x0 Ax0] := free_solution (- b) independent; apply: exact Ax0.
Qed.

Lemma ns_feasible : A *m x + b = 0.
Proof.
by rewrite /x /ns_x mulmxDr mulmxA A_Z mul0mx add0r A_x_special addNr.
Qed.

Lemma ns_multipliers : Rp *m lam = - Y^T *m (B *m x + c).
Proof.
have [l0 Rl0] := free_solution (- Y^T *m (B *m x + c)) Rp_row_free.
exact: exact Rl0.
Qed.

Hypothesis definite : positive_definite (ns_a_ np env B A).

Lemma reduced_solved :
  ns_a_ np env B A *m ns_x_g np env B c A b = - ns_b_ np env B c A b.
Proof.
apply: exact (unit_solution _ _).
exact: columns_inj_unit (definite_inj definite).
Qed.

Lemma reduced_gradient : Z^T *m (B *m x + c) = 0.
Proof.
rewrite /x /ns_x !mulmxDr !mulmxA.
have -> : Z^T *m B *m ns_Z np env A *m ns_x_g np env B c A b
          = - ns_b_ np env B c A b by rewrite -reduced_solved.
by rewrite -addrA [X in _ + X]addrC; apply: addNr.
Qed.

Lemma ns_kkt : B *m x + A^T *m lam = - c.
Proof.
apply/eqP; rewrite -subr_eq0 opprK addrAC; apply/eqP.
apply: (@split_zero _ _ m _ q_orthogonal); rewrite mulmxDr -/Y -/Z.
  rewrite thin_factors !mulmxA (@YtY _ _ m _ q_orthogonal) mul1mx ns_multipliers.
  by rewrite mulNmx addrN.
rewrite reduced_gradient add0r thin_factors !mulmxA (@ZtY _ _ m _ q_orthogonal).
by rewrite !mul0mx.
Qed.

(** The KKT matrix has a trivial kernel. *)
Lemma kkt_injective (p : 'cV[R]_n) (v : 'cV[R]_m) :
  block_mx B A^T A 0 *m col_mx p v = 0 -> p = 0 /\ v = 0.
Proof.
rewrite mul_block_col mul0mx addr0 -col_mx0 => /eq_col_mx[Bp Ap].
have Yp : Y^T *m p = 0.
  apply: (free_tr_inj Rp_row_free).
  by rewrite mulmxA -A_thin.
have pZ : p = Z *m (Z^T *m p).
  apply/eqP; rewrite -subr_eq0; apply/eqP.
  apply: (@split_zero _ _ m _ q_orthogonal); rewrite mulmxBr -/Y -/Z !mulmxA.
    by rewrite Yp (@YtZ _ _ m _ q_orthogonal) !mul0mx subrr.
  by rewrite (@ZtZ _ _ m _ q_orthogonal) mul1mx subrr.
have u0 : Z^T *m p = 0.
  move: pZ; set u := Z^T *m p => pZ.
  apply/eqP/negbNE/negP => /definite.
  have -> : u^T *m ns_a_ np env B A *m u = p^T *m (B *m p).
    by rewrite /ns_a_ -/Z !mulmxA -trmx_mul -pZ -!mulmxA -pZ.
  have -> : B *m p = - (A^T *m v) by apply/eqP; rewrite -addr_eq0 Bp.
  by rewrite mulmxN mulmxA -trmx_mul Ap trmx0 mul0mx oppr0 mxE ltxx.
have p0 : p = 0 by rewrite pZ u0 mulmx0.
split=> //; apply: (free_tr_inj independent).
by move: Bp; rewrite p0 mulmx0 add0r.
Qed.

Lemma kkt_unit : block_mx B A^T A 0 \in unitmx.
Proof.
apply: columns_inj_unit => z; rewrite -[z]vsubmxK => /kkt_injective[-> ->].
exact: col_mx0.
Qed.

End Solver.

Section Assembly.

Variable R : realFieldType.
Variable np : linalg R.
Variables n m : nat.
Variable B : 'M[R]_n.
Variable c : 'cV[R]_n.
Variable A : 'M[R]_(m, n).
Variable b : 'cV[R]_m.

Lemma entry_ord (r k : nat) (M : 'M[R]_(r, k)) (i : 'I_r) (j : 'I_k) :
  entry M i j = M i j.
Proof. by rewrite /entry !valK. Qed.

Lemma broadcast_same (r k : nat) (M : 'M[R]_(r, k)) : broadcast M r k = M.
Proof. by apply/matrixP => i j; rewrite mxE !eqxx entry_ord. Qed.

Lemma nv_fits_same : nv_fits (Globals n m) n m.
Proof. by rewrite /nv_fits /fits /= !eqxx. Qed.

Lemma nv_A_same : nv_A (Globals n m) B A = block_mx B A^T A 0.
Proof. by rewrite /nv_A /= !broadcast_same. Qed.

Lemma nv_b_same : nv_b (Globals n m) c b = col_mx (- c) (- b).
Proof. by rewrite /nv_b /= !broadcast_same. Qed.

(** What the naive branch returns solves the KKT system whenever that
    system has a solution. *)
Lemma naive_solves (z : 'cV[R]_(n + m)) :
  lstsq_exact np ->
  block_mx B A^T A 0 *m z = col_mx (- c) (- b) ->
  block_mx B A^T A 0 *m nv_x_lambda np (Globals n m) B c A b
  = col_mx (- c) (- b).
Proof.
move=> exact Kz; rewrite /nv_x_lambda nv_A_same nv_b_same.
exact: exact Kz.
Qed.

End Assembly.

Section Claims.

Variable R : realFieldType.
Variable np : linalg R.
Variables n m : nat.
Variable B : 'M[R]_n.
Variable c : 'cV[R]_n.
Variable A : 'M[R]_(m, n).
Variable b : 'cV[R]_m.

(** C4, as amended.  For a matrix [A] of full row rank, the multipliers
    returned by the null-space branch solve the triangular system
    [Rp * lambda = - Y' (B x + c)], with [Rp] itself and not its transpose;
    [Y] is made of the first [m] columns of [Q], [Rp] of the first [m] rows
    of [R], and [x] is the returned primal solution. *)
Theorem nullspace_multipliers_system :
  lstsq_exact np -> complete_qr A^T (qr np A^T) -> row_free A ->
  let env := Globals n m in
  let x := ns_x np env B c A b in
  let lam := ns_lambda np env B c A b in
  QP np env B c A b NullSpace = Done (ravel x, ravel lam) /\
  ns_Rp np env A *m lam = - (ns_Y np env A)^T *m (B *m x + c).
Proof. by move=> ex fa fr; split=> //; apply: ns_multipliers. Qed.

(** C6.  For [A] of full row rank, the primal solution returned by either
    branch satisfies [A x + b = 0]: by the naive branch when the KKT matrix
    is invertible, by the null-space branch for any complete QR
    factorisation of [A'] (the reduced Hessian plays no part in it). *)
Theorem QP_solution_feasible :
  lstsq_exact np -> row_free A ->
  let env := Globals n m in
  (nv_A env B A \in unitmx ->
   exists (x : 'cV[R]_n) (l : 'cV[R]_m), QP np env B c A b Naive = Done (ravel x, ravel l) /\
               A *m x + b = 0) /\
  (complete_qr A^T (qr np A^T) ->
   exists (x : 'cV[R]_n) (l : 'cV[R]_m), QP np env B c A b NullSpace = Done (ravel x, ravel l) /\
               A *m x + b = 0).
Proof.
move=> ex fr env; split=> [uK|fa]; last first.
  exists (ns_x np env B c A b), (ns_lambda np env B c A b); split=> //.
  exact: ns_feasible.
set xl := nv_x_lambda np env B c A b.
exists (usubmx xl), (dsubmx xl); rewrite /QP nv_fits_same; split=> //.
rewrite /env nv_A_same in uK.
have := naive_solves ex (unit_solution (col_mx (- c) (- b)) uK).
rewrite -/env -/xl -[xl in _ *m xl]vsubmxK mul_block_col.
by case/eq_col_mx=> _; rewrite mul0mx addr0 => ->; rewrite addNr.
Qed.

(** C5.  For [A] of full row rank and a positive definite reduced Hessian
    [Z'BZ], the naive and the null-space branches return the same primal
    solution and the same multipliers. *)
Theorem naive_and_nullspace_agree :
  lstsq_exact np -> complete_qr A^T (qr np A^T) -> row_free A ->
  let env := Globals n m in
  positive_definite (ns_a_ np env B A) ->
  exists (x : 'cV[R]_n) (l : 'cV[R]_m),
    QP np env B c A b Naive = Done (ravel x, ravel l) /\
    QP np env B c A b NullSpace = Done (ravel x, ravel l).
Proof.
move=> ex fa fr env pd.
set x := ns_x np env B c A b; set lam := ns_lambda np env B c A b.
exists x, lam; split=> //; rewrite /QP nv_fits_same.
have Kns : block_mx B A^T A 0 *m col_mx x lam = col_mx (- c) (- b).
  rewrite mul_block_col mul0mx addr0 (ns_kkt c b ex fa fr pd).
  by congr col_mx; apply/eqP; rewrite -addr_eq0 (ns_feasible B c b ex fa fr).
have Knv := naive_solves ex Kns.
set xl := nv_x_lambda np (Globals n m) B c A b in Knv *.
have : block_mx B A^T A 0 *m
       col_mx (usubmx xl - x) (dsubmx xl - lam) = 0.
  have -> : col_mx (usubmx xl - x) (dsubmx xl - lam) = xl - col_mx x lam.
    by rewrite -[xl in RHS]vsubmxK opp_col_mx add_col_mx.
  by rewrite mulmxBr Knv Kns subrr.
case/(kkt_injective fa fr pd) => /eqP; rewrite subr_eq0 => /eqP-> /eqP.
by rewrite subr_eq0 => /eqP->.
Qed.

End Claims.


Section Generic.
Variable R : realFieldType.

Lemma identity_definite (k : nat) : positive_definite (1%:M : 'M[R]_k).
Proof.
move=> u; apply: contraNT; rewrite -leNgt mulmx1 mxE => le0.
have ge0 (i : 'I_k) : true -> 0 <= u^T 0 i * u i 0.
  by move=> _; rewrite mxE -expr2 sqr_ge0.
have : \sum_i u^T 0 i * u i 0 == 0 by rewrite eq_le le0 sumr_ge0.
rewrite psumr_eq0 // => /allP z.
apply/eqP/colP => i; rewrite [RHS]mxE.
have := z i (mem_index_enum i); rewrite mxE /= mulf_eq0 orbb.
by move/eqP.
Qed.

End Generic.

Lemma exact_np : lstsq_exact Exact.np.
Proof.
move=> r c M v x0 <-; rewrite /Exact.np /=.
by rewrite 2!mulmxA (mulmxKpV (submx_refl M)).
Qed.

Lemma upper_qr (r c : nat) (M : 'M[rat]_(r, c)) :
  (forall (i : 'I_r) (j : 'I_c), (j < i)%N -> M i j = 0) ->
  complete_qr M (qr Exact.np M).
Proof. by move=> tri; split=> //=; rewrite ?mul1mx // trmx1 mulmx1. Qed.

Lemma qr_A1 : complete_qr A1^T (qr Exact.np A1^T).
Proof.
apply: upper_qr => i j ji; rewrite !mxE.
by case: i ji => [[|i] hi].
Qed.

Lemma free_A1 : row_free A1.
Proof.
apply/row_freeP; exists A1^T; apply/matrixP => i j.
rewrite !mxE !big_ord_recl big_ord0 !mxE !ord1 /=.
by rewrite !mulr0 !addr0 mulr1.
Qed.

Lemma definite_a1 : positive_definite (ns_a_ Exact.np (Globals 3 1) B1 A1).
Proof.
have [_ orth _] := qr_A1.
rewrite /ns_a_ mulmx1 (@ZtZ _ _ 1 _ orth).
exact: identity_definite.
Qed.

(** C4, witness: the program [A1], [B1], [c1], [b1]. *)
Lemma nullspace_multipliers_system_witness :
  let env := Globals 3 1 in
  let x := ns_x Exact.np env B1 c1 A1 b1 in
  let lam := ns_lambda Exact.np env B1 c1 A1 b1 in
  QP Exact.np env B1 c1 A1 b1 NullSpace = Done (ravel x, ravel lam) /\
  ns_Rp Exact.np env A1 *m lam = - (ns_Y Exact.np env A1)^T *m (B1 *m x + c1).
Proof.
exact: (@nullspace_multipliers_system _ Exact.np 3 1 B1 c1 A1 b1
          exact_np qr_A1 free_A1).
Defined.

(** C5, witness: the program [A1], [B1], [c1], [b1]. *)
Lemma naive_and_nullspace_agree_witness :
  let env := Globals 3 1 in
  exists (x : 'cV[rat]_3) (l : 'cV[rat]_1),
    QP Exact.np env B1 c1 A1 b1 Naive = Done (ravel x, ravel l) /\
    QP Exact.np env B1 c1 A1 b1 NullSpace = Done (ravel x, ravel l).
Proof.
exact: (@naive_and_nullspace_agree _ Exact.np 3 1 B1 c1 A1 b1
          exact_np qr_A1 free_A1 definite_a1).
Defined.

Lemma kkt_unit_1 : nv_A (Globals 3 1) B1 A1 \in unitmx.
Proof. by rewrite nv_A_same; apply: kkt_unit qr_A1 free_A1 definite_a1. Qed.

(** C6, witness: the program [A1], [B1], [c1], [b1]. *)
Lemma QP_solution_feasible_witness :
  let env := Globals 3 1 in
  (exists (x : 'cV[rat]_3) (l : 'cV[rat]_1),
     QP Exact.np env B1 c1 A1 b1 Naive = Done (ravel x, ravel l) /\
     A1 *m x + b1 = 0) /\
  (exists (x : 'cV[rat]_3) (l : 'cV[rat]_1),
     QP Exact.np env B1 c1 A1 b1 NullSpace = Done (ravel x, ravel l) /\
     A1 *m x + b1 = 0).
Proof.
have [nv ns] := @QP_solution_feasible _ Exact.np 3 1 B1 c1 A1 b1
                  exact_np free_A1.
by split; [apply: nv kkt_unit_1 | apply: ns qr_A1].
Defined.

Lemma ravel_inj (R : realFieldType) (k : nat) : injective (@ravel R k).
Proof.
move=> u v e; apply/colP => i.
have := congr1 (fun s => nth 0 s i) e.
by rewrite /ravel !(nth_map i) -?enumT ?size_enum_ord // !nth_ord_enum.
Qed.

Lemma a_is_1 : ns_a_ Exact.np (Globals 3 1) B1 A1 = 1%:M.
Proof.
have [_ orth _] := qr_A1.
by rewrite /ns_a_ mulmx1 (@ZtZ _ _ 1 _ orth).
Qed.

Lemma lstsqE (r c : nat) (M : 'M[rat]_(r, c)) (v : 'cV[rat]_r) :
  lstsq Exact.np M v = pinvmx M *m v.
Proof. by []. Qed.

Lemma ns_qE (n m : nat) (A : 'M[rat]_(m, n)) : ns_q Exact.np A = 1%:M.
Proof. by []. Qed.

Lemma x_matching_scope :
  ns_x Exact.np (Globals 3 1) B1 c1 A1 0 (lift ord0 ord0) 0 = -1.
Proof.
rewrite /ns_x /ns_x_special lstsqE oppr0 mulmx0 addr0.
rewrite /ns_x_g lstsqE a_is_1 pinvmxE ?unitmx1 // invmx1 mul1mx.
rewrite /ns_b_ /ns_x_special lstsqE oppr0 !mulmx0 addr0.
rewrite /ns_Z /cols_from ns_qE.
rewrite !mxE !big_ord_recl !big_ord0 !mxE.
rewrite !big_ord_recl !big_ord0 !mxE.
by apply/eqP; vm_compute.
Qed.

Lemma x_notebook_scope :
  ns_x Exact.np (Globals 7 2) B1 c1 A1 0 (lift ord0 ord0) 0 = 0.
Proof.
rewrite /ns_x /ns_x_special lstsqE oppr0 mulmx0 addr0.
rewrite mxE big_ord1 /ns_Z /cols_from ns_qE !mxE.
by rewrite -val_eqE mul0r.
Qed.

(** C3, failing calls.  The same arguments, a program with three variables
    and one constraint, once with the globals [n = 3], [m = 1] that match
    them and once with the globals [n = 7], [m = 2] of the notebook: the
    naive branch returns in the first case and raises in the second; the
    null-space branch returns two different primal solutions. *)
Theorem QP_reads_enclosing_scope :
  QP Exact.np (Globals 3 1) B1 c1 A1 0 Naive <>
  QP Exact.np (Globals 7 2) B1 c1 A1 0 Naive /\
  QP Exact.np (Globals 3 1) B1 c1 A1 0 NullSpace <>
  QP Exact.np (Globals 7 2) B1 c1 A1 0 NullSpace.
Proof.
split; first by rewrite /QP nv_fits_same.
case=> /ravel_inj/colP/(_ (lift ord0 ord0)) + _.
by rewrite x_matching_scope x_notebook_scope => /eqP; vm_compute.
Qed.

Lemma qr_A2 : complete_qr A2^T (qr Exact.np A2^T).
Proof.
apply: upper_qr => i j ji; rewrite !mxE.
by rewrite leqNgt ji.
Qed.

Lemma free_A2 : row_free A2.
Proof.
apply/row_freeP.
exists (\matrix_(i, j) ((i == j :> nat)%:R - (j < i)%N%:R)).
apply/matrixP => i j; rewrite !mxE big_ord_recl big_ord1 !mxE.
case: i => [[|[|i]] hi] //; case: j => [[|[|j]] hj] //=;
  by apply/eqP; vm_compute.
Qed.

(** C4, counterexample.  Two variables, two constraints, [A2' = Q R] with
    [Q] the identity and [R = A2'] upper triangular and not symmetric: the
    returned multipliers do not solve the system with [Rp'] in place of
    [Rp]. *)
Lemma nullspace_multipliers_not_transposed :
  let env := Globals 2 2 in
  let x := ns_x Exact.np env B2 c2 A2 b2 in
  let lam := ns_lambda Exact.np env B2 c2 A2 b2 in
  [/\ lstsq_exact Exact.np, complete_qr A2^T (qr Exact.np A2^T), row_free A2,
      QP Exact.np env B2 c2 A2 b2 NullSpace = Done (ravel x, ravel lam)
    & (ns_Rp Exact.np env A2)^T *m lam
      <> - (ns_Y Exact.np env A2)^T *m (B2 *m x + c2)].
Proof.
move=> env x lam; split=> //; [exact: exact_np | exact: qr_A2 | exact: free_A2 |].
have := ns_multipliers B2 c2 b2 exact_np qr_A2 free_A2.
rewrite -/env -/x -/lam mul0mx add0r => sys tsys.
move/matrixP/(_ ord0 ord0): sys.
move/matrixP/(_ (lift ord0 ord0) ord0): tsys.
rewrite /ns_Rp /ns_Y /rows_upto /cols_upto /ns_r /ns_q /Exact.np /=.
rewrite !mxE !big_ord_recl !big_ord0 !mxE /= => ->.
by move/eqP; vm_compute.
Qed.

End QPFacts.

(** * Further properties of the QP solver *)

Module QPMore.

Import QPSolver QPFacts QPExample.

Section Kernel.

Variable R : realFieldType.
Variable np : linalg R.
Variables n m : nat.
Variable A : 'M[R]_(m, n).

Hypothesis factored : complete_qr A^T (qr np A^T).
Hypothesis independent : row_free A.

Let Y := ns_Y np (Globals n m) A.
Let Z := ns_Z np (Globals n m) A.

Lemma kernel_orthogonal_to_Y (p : 'cV[R]_n) : A *m p = 0 -> Y^T *m p = 0.
Proof.
move=> Ap; apply: (free_tr_inj (Rp_row_free factored independent)).
by rewrite mulmxA -(A_thin factored).
Qed.

Lemma kernel_in_range (p : 'cV[R]_n) : A *m p = 0 -> p = Z *m (Z^T *m p).
Proof.
move=> Ap; have orth := q_orthogonal factored.
apply/eqP; rewrite -subr_eq0; apply/eqP.
apply: (@split_zero _ _ m _ orth); rewrite mulmxBr -/Y -/Z !mulmxA.
  by rewrite kernel_orthogonal_to_Y // (@YtZ _ _ m _ orth) !mul0mx subrr.
by rewrite (@ZtZ _ _ m _ orth) mul1mx subrr.
Qed.

End Kernel.

Section Optimum.

Variable R : realFieldType.
Variable np : linalg R.
Variables n m : nat.
Variable B : 'M[R]_n.
Variable c : 'cV[R]_n.
Variable A : 'M[R]_(m, n).
Variable b : 'cV[R]_m.

Hypothesis exact : lstsq_exact np.
Hypothesis factored : complete_qr A^T (qr np A^T).
Hypothesis independent : row_free A.
Hypothesis definite : positive_definite (ns_a_ np (Globals n m) B A).

Let env := Globals n m.

(** The KKT system has the pair of the null-space branch as only
    solution. *)
Lemma kkt_unique (x : 'cV[R]_n) (l : 'cV[R]_m) :
  B *m x + A^T *m l + c = 0 -> A *m x + b = 0 ->
  x = ns_x np env B c A b /\ l = ns_lambda np env B c A b.
Proof.
move=> st fe.
have st0 := ns_kkt c b exact factored independent definite.
have fe0 := ns_feasible B c b exact factored independent.
have : block_mx B A^T A 0 *m
       col_mx (x - ns_x np env B c A b) (l - ns_lambda np env B c A b) = 0.
  rewrite mul_block_col mul0mx addr0 !mulmxBr -col_mx0; congr col_mx.
    rewrite addrACA -opprD st0 opprK; exact: st.
  have -> : A *m x = - b by apply/eqP; rewrite -addr_eq0 fe.
  have -> : A *m ns_x np env B c A b = - b by apply/eqP; rewrite -addr_eq0 fe0.
  by rewrite subrr.
case/(kkt_injective factored independent definite) => /eqP.
by rewrite subr_eq0 => /eqP-> /eqP; rewrite subr_eq0 => /eqP->.
Qed.

(** What either branch returns, as arrays. *)
Lemma QP_pair (meth : qp_method) :
  QP np env B c A b meth =
  Done (ravel (ns_x np env B c A b), ravel (ns_lambda np env B c A b)).
Proof.
case: meth => //; rewrite /QP nv_fits_same.
set x := ns_x np env B c A b; set lam := ns_lambda np env B c A b.
have Kns : block_mx B A^T A 0 *m col_mx x lam = col_mx (- c) (- b).
  rewrite mul_block_col mul0mx addr0.
  rewrite (ns_kkt c b exact factored independent definite).
  congr col_mx; apply/eqP.
  by rewrite -addr_eq0 (ns_feasible B c b exact factored independent).
have := naive_solves exact Kns.
set xl := nv_x_lambda np (Globals n m) B c A b.
rewrite -[xl in _ *m xl]vsubmxK mul_block_col mul0mx addr0.
case/eq_col_mx=> /eqP; rewrite -addr_eq0 => /eqP st /eqP.
rewrite -addr_eq0 => /eqP fe.
by have [-> ->] := kkt_unique st fe.
Qed.

Lemma mx11_tr (M : 'M[R]_1) : M^T = M.
Proof. by apply/matrixP => i j; rewrite mxE !ord1. Qed.

(** The objective along a displacement [d], for a symmetric [B]. *)
Lemma objective_expand (x d : 'cV[R]_n) :
  B^T = B ->
  objective B c (x + d) =
  objective B c x + (d^T *m (B *m x + c)) 0 0
  + (1 / 2%:R) * (d^T *m B *m d) 0 0.
Proof.
move=> symB.
have sw : x^T *m B *m d = d^T *m B *m x.
  by rewrite -[LHS]mx11_tr !trmx_mul trmxK symB mulmxA.
have cd : c^T *m d = d^T *m c.
  by rewrite -[LHS]mx11_tr trmx_mul trmxK.
rewrite /objective [(x + d)^T]linearD /= !mulmxDl !mulmxDr sw cd !mulmxA.
move: (x^T *m B *m x) (d^T *m B *m d) (d^T *m B *m x) (c^T *m x) (d^T *m c).
move=> a e u p q; rewrite !mxE.
move: (a 0 0) (e 0 0) (u 0 0) (p 0 0) (q 0 0) => {}a {}e {}u {}p {}q.
rewrite !mulrDr -!addrA; congr (_ + _).
rewrite addrA -mulrDl -splitr mul1r [RHS]addrCA; congr (_ + _).
by rewrite addrC -addrA.
Qed.

End Optimum.

Section MoreClaims.

Variable R : realFieldType.
Variable np : linalg R.
Variables n m : nat.
Variable B : 'M[R]_n.
Variable c : 'cV[R]_n.
Variable A : 'M[R]_(m, n).
Variable b : 'cV[R]_m.

(** X13.  [QP], NullSpace branch: [Z = q[:, m:]] is what its comment says,
    an orthonormal basis of the kernel of [A], when [A] has full row
    rank. *)
Theorem nullspace_basis :
  complete_qr A^T (qr np A^T) -> row_free A ->
  let Z := ns_Z np (Globals n m) A in
  [/\ Z^T *m Z = 1%:M, A *m Z = 0
     & forall p : 'cV[R]_n, A *m p = 0 <-> exists u, p = Z *m u].
Proof.
move=> fa fr Z; split; first exact: (@ZtZ _ _ m _ (q_orthogonal fa)).
  exact: A_Z.
move=> p; split=> [Ap|[u ->]]; last by rewrite mulmxA (A_Z fa) mul0mx.
by exists (Z^T *m p); apply: kernel_in_range.
Qed.

(** X14.  [QP], both branches: under the assumption of the docstring the
    returned pair [(x, lambda_)] solves the KKT system
    [B x + A' lambda_ + c = 0], [A x + b = 0], and is its only solution. *)
Theorem QP_solves_KKT (meth : qp_method) :
  lstsq_exact np -> complete_qr A^T (qr np A^T) -> row_free A ->
  let env := Globals n m in
  positive_definite (ns_a_ np env B A) ->
  exists (x : 'cV[R]_n) (l : 'cV[R]_m),
    [/\ QP np env B c A b meth = Done (ravel x, ravel l),
        B *m x + A^T *m l + c = 0,
        A *m x + b = 0
      & forall (x' : 'cV[R]_n) (l' : 'cV[R]_m),
          B *m x' + A^T *m l' + c = 0 -> A *m x' + b = 0 ->
          x' = x /\ l' = l].
Proof.
move=> ex fa fr env pd.
exists (ns_x np env B c A b), (ns_lambda np env B c A b); split.
- exact: QP_pair.
- by rewrite (ns_kkt c b ex fa fr pd) addNr.
- exact: ns_feasible.
by move=> x' l'; apply: kkt_unique.
Qed.

(** X15.  [QP] and the example cell: for a symmetric [B], under the
    assumption of the docstring, the returned [x] is the strict minimiser
    of the printed objective [0.5 x'Bx + c'x] over the points with
    [A x + b = 0]. *)
Theorem QP_minimises (meth : qp_method) :
  lstsq_exact np -> complete_qr A^T (qr np A^T) -> row_free A ->
  let env := Globals n m in
  positive_definite (ns_a_ np env B A) ->
  B^T = B ->
  exists (x : 'cV[R]_n) (l : 'cV[R]_m),
    [/\ QP np env B c A b meth = Done (ravel x, ravel l),
        A *m x + b = 0
      & forall y : 'cV[R]_n, A *m y + b = 0 -> y != x ->
          objective B c x < objective B c y].
Proof.
move=> ex fa fr env pd symB.
set x := ns_x np env B c A b; set lam := ns_lambda np env B c A b.
have fx : A *m x + b = 0 by apply: ns_feasible.
exists x, lam; split=> //; first exact: QP_pair.
move=> y fy ny; pose d := y - x.
have yd : y = x + d by rewrite addrC subrK.
have Ad : A *m d = 0.
  rewrite mulmxBr; apply/eqP; rewrite subr_eq0; apply/eqP.
  by apply: (addIr b); rewrite fy fx.
have dZ := kernel_in_range fa fr Ad.
have u0 : (ns_Z np env A)^T *m d != 0.
  apply: contraNneq ny => u0.
  by rewrite yd dZ u0 mulmx0 addr0.
have t1 : d^T *m (B *m x + c) = 0.
  have -> : B *m x + c = - (A^T *m lam).
    apply/eqP; rewrite -addr_eq0 addrAC (ns_kkt c b ex fa fr pd).
    by rewrite addNr.
  by rewrite mulmxN mulmxA -trmx_mul Ad trmx0 mul0mx oppr0.
have t2 : 0 < (d^T *m B *m d) 0 0.
  have := pd _ u0; rewrite /ns_a_ !mulmxA -trmx_mul -dZ.
  by rewrite -!mulmxA -dZ !mulmxA.
rewrite yd objective_expand // t1 mxE addr0 ltrDl.
by rewrite mulr_gt0 // divr_gt0 // ltr0n.
Qed.

(** X16.  [QP], naive branch: as soon as the KKT system has a solution
    the branch returns one, with no assumption on the curvature.  For a
    symmetric [B] the objective at [x + p], [p] in the kernel of [A], is
    its value at [x] plus [0.5 p'Bp]: the returned point is a minimum only
    as far as [B] is non-negative on the kernel. *)
Theorem naive_returns_stationary_point :
  lstsq_exact np ->
  (exists z, block_mx B A^T A 0 *m z = col_mx (- c) (- b)) ->
  exists (x : 'cV[R]_n) (l : 'cV[R]_m),
    [/\ QP np (Globals n m) B c A b Naive = Done (ravel x, ravel l),
        B *m x + A^T *m l + c = 0,
        A *m x + b = 0
      & B^T = B ->
        forall p : 'cV[R]_n, A *m p = 0 ->
          objective B c (x + p)
          = objective B c x + (1 / 2%:R) * (p^T *m B *m p) 0 0].
Proof.
move=> ex [z Kz]; have := naive_solves ex Kz.
set xl := nv_x_lambda np (Globals n m) B c A b.
rewrite -[xl in _ *m xl]vsubmxK mul_block_col mul0mx addr0.
case/eq_col_mx=> st fe; exists (usubmx xl), (dsubmx xl); split.
- by rewrite /QP nv_fits_same.
- by rewrite st addNr.
- by rewrite fe addNr.
move=> symB p Ap; rewrite objective_expand //; congr (_ + _).
have -> : B *m usubmx xl + c = - (A^T *m dsubmx xl).
  by apply/eqP; rewrite -addr_eq0 addrAC st addNr.
by rewrite mulmxN mulmxA -trmx_mul Ap trmx0 mul0mx oppr0 mxE addr0.
Qed.

End MoreClaims.

Import Cases.

(** X13, witness: the constraint matrix [A1]. *)
Lemma nullspace_basis_witness :
  let Z := ns_Z Exact.np (Globals 3 1) A1 in
  [/\ Z^T *m Z = 1%:M, A1 *m Z = 0
     & forall p : 'cV[rat]_3, A1 *m p = 0 <-> exists u, p = Z *m u].
Proof. exact: (@nullspace_basis _ Exact.np 3 1 A1 qr_A1 free_A1). Defined.

(** X14, witness: the program [A1], [B1], [c1], [b1], naive branch. *)
Lemma QP_solves_KKT_witness :
  exists (x : 'cV[rat]_3) (l : 'cV[rat]_1),
    [/\ QP Exact.np (Globals 3 1) B1 c1 A1 b1 Naive = Done (ravel x, ravel l),
        B1 *m x + A1^T *m l + c1 = 0,
        A1 *m x + b1 = 0
      & forall (x' : 'cV[rat]_3) (l' : 'cV[rat]_1),
          B1 *m x' + A1^T *m l' + c1 = 0 -> A1 *m x' + b1 = 0 ->
          x' = x /\ l' = l].
Proof.
exact: (@QP_solves_KKT _ Exact.np 3 1 B1 c1 A1 b1 Naive exact_np qr_A1
          free_A1 definite_a1).
Defined.

(** X15, witness: the program [A1], [B1], [c1], [b1], null-space branch. *)
Lemma QP_minimises_witness :
  exists (x : 'cV[rat]_3) (l : 'cV[rat]_1),
    [/\ QP Exact.np (Globals 3 1) B1 c1 A1 b1 NullSpace
        = Done (ravel x, ravel l),
        A1 *m x + b1 = 0
      & forall y : 'cV[rat]_3, A1 *m y + b1 = 0 -> y != x ->
          objective B1 c1 x < objective B1 c1 y].
Proof.
exact: (@QP_minimises _ Exact.np 3 1 B1 c1 A1 b1 NullSpace exact_np qr_A1
          free_A1 definite_a1 (trmx1 _ _)).
Defined.

(** X16, witness: the program [A1], [B1], [c1], [b1], whose KKT matrix is
    invertible. *)
Lemma naive_returns_stationary_point_witness :
  exists (x : 'cV[rat]_3) (l : 'cV[rat]_1),
    [/\ QP Exact.np (Globals 3 1) B1 c1 A1 b1 Naive = Done (ravel x, ravel l),
        B1 *m x + A1^T *m l + c1 = 0,
        A1 *m x + b1 = 0
      & B1^T = B1 ->
        forall p : 'cV[rat]_3, A1 *m p = 0 ->
          objective B1 c1 (x + p)
          = objective B1 c1 x + (1 / 2%:R) * (p^T *m B1 *m p) 0 0].
Proof.
apply: (@naive_returns_stationary_point _ Exact.np 3 1 B1 c1 A1 b1 exact_np).
exists (invmx (block_mx B1 A1^T A1 0) *m col_mx (- c1) (- b1)).
by rewrite mulmxA mulmxV ?mul1mx // -nv_A_same; apply: kkt_unit_1.
Defined.

End QPMore.

(** * Further properties of the optimiser *)

Module NewtonMore.

Import Newton NewtonFacts.

Section Algebra.

Variable R : realFieldType.

(** On an invertible matrix a generalised inverse is the inverse. *)
Lemma ginverse_unit (k : nat) (B X : 'M[R]_k) :
  B \in unitmx -> B *m X *m B = B -> X = invmx B.
Proof.
move=> uB H.
have -> : X = invmx B *m (B *m X *m B) *m invmx B.
  by rewrite !mulmxA mulVmx // mul1mx -mulmxA mulmxV // mulmx1.
by rewrite H mulVmx // mul1mx.
Qed.

(** A positive definite matrix is invertible and its Newton direction is a
    descent direction. *)
Lemma definite_unit (k : nat) (B : 'M[R]_k) :
  QPSolver.positive_definite B -> B \in unitmx.
Proof.
by move=> pd; apply: QPFacts.columns_inj_unit (QPFacts.definite_inj pd).
Qed.

Lemma definite_form (k : nat) (B : 'M[R]_k) (h : 'cV[R]_k) :
  QPSolver.positive_definite B -> h != 0 -> 0 < ((B *m h)^T *m h) 0 0.
Proof.
move=> pd h0.
have -> : (B *m h)^T *m h = (h^T *m B *m h)^T.
  by rewrite !trmx_mul trmxK mulmxA.
by rewrite mxE; apply: pd.
Qed.

Lemma definite_descent (k : nat) (B : 'M[R]_k) (g : 'cV[R]_k) :
  QPSolver.positive_definite B -> g != 0 ->
  \sum_i g i 0 * (- (invmx B *m g)) i 0 < 0.
Proof.
move=> pd g0; have uB := definite_unit pd.
have gh : g = B *m (invmx B *m g) by rewrite mulmxA mulmxV // mul1mx.
have h0 : invmx B *m g != 0.
  by apply: contraNneq g0 => h0; rewrite gh h0 mulmx0.
rewrite dotE mulmxN mxE oppr_lt0 [X in X^T *m _]gh.
exact: definite_form.
Qed.

(** [J'J + a I] is positive definite for a positive [a]. *)
Lemma damped_gram_definite (k l : nat) (J : 'M[R]_(l, k)) (a : R) :
  0 < a -> QPSolver.positive_definite (J^T *m J + a *: 1%:M).
Proof.
move=> a0 u u0; rewrite mulmxDr mulmxDl mxE.
have -> : u^T *m (J^T *m J) *m u = (J *m u)^T *m (J *m u).
  by rewrite trmx_mul !mulmxA.
rewrite -dotE -scalemxAr -scalemxAl mulmx1 mxE -dotE.
apply: ltr_wpDl; first exact: dot_ge0.
by rewrite mulr_gt0 // lt_def dot_ge0 dot_eq0 u0.
Qed.

End Algebra.

Section Passes.

Variable R : realFieldType.
Variables m N : nat.
Variable fcn : 'cV[R]_m -> 'cV[R]_N.
Variable lib : oracle R m N.

Implicit Types (self : newton_opt R m) (st : loop_state R m).

(** A pass without line search whose curvature matrix is invertible. *)
Lemma step_unit lf self st B :
  global_ self = false ->
  curvature lib self (cur_x st) (cur_B st) = Done B ->
  B \in unitmx -> B *m pinv lib B *m B = B ->
  exists st',
    [/\ step fcn lib lf self st
        = Done (st', - (invmx B *m gradient fcn lib self (cur_x st))),
        cur_x st' = cur_x st - invmx B *m gradient fcn lib self (cur_x st)
      & cur_i st' = (cur_i st).+1].
Proof.
move=> plain cB uB /(ginverse_unit uB) pB.
rewrite (step_plain fcn lf plain cB) /= pB.
by eexists; split.
Qed.

(** A pass without line search at a point where the gradient vanishes
    leaves the iterate where it is. *)
Lemma step_stationary lf self st B :
  global_ self = false ->
  curvature lib self (cur_x st) (cur_B st) = Done B ->
  gradient fcn lib self (cur_x st) = 0 ->
  exists st',
    [/\ step fcn lib lf self st = Done (st', 0), cur_x st' = cur_x st
      & cur_i st' = (cur_i st).+1].
Proof.
move=> plain cB g0; rewrite (step_plain fcn lf plain cB) /= g0 mulmx0 oppr0.
by eexists; split=> //=; rewrite addr0.
Qed.

(** A first pass that lands on a point from which the next pass does not
    move: the run returns that point after at most two passes. *)
Lemma lands_and_stays lf self max_it st1 dx1 :
  step fcn lib lf self (start self) = Done (st1, dx1) ->
  (exists st2, [/\ step fcn lib lf self st1 = Done (st2, 0),
                   cur_x st2 = cur_x st1 & cur_i st2 = (cur_i st1).+1]) ->
  norm lib 0 < eps self ->
  exists rep,
    [/\ optimize fcn lib lf 2 self max_it = Done rep,
        final_x rep = cur_x st1 & (iterations rep <= 2)%N].
Proof.
move=> E1 [st2 [E2 x2 i2]] small.
have [_ i1] := step_returns E1.
rewrite /optimize optimize_loopS E1 bind_Done.
case: ifP => _; first by eexists; split=> //=; rewrite i1.
rewrite [(st1, dx1).1]/= optimize_loopS E2 bind_Done /exit_test.
rewrite [(st2, 0).2]/= small [(st2, 0).1]/=.
by eexists; split=> //=; rewrite i2 i1.
Qed.

Lemma pass_prefix lf self k st r :
  pass fcn lib lf self k.+1 st = Done r ->
  exists r', pass fcn lib lf self k st = Done r'.
Proof.
elim: k st => [|k IH] st /=.
  by case: step => [r1|e||] //= _; exists r1.
case: step => [r1|e||] //=; exact: IH.
Qed.

Lemma backtrack_trace fuel (xk g dx : 'cV[R]_m) (t0 t : R) :
  backtrack fcn fuel xk g dx t0 = Done t ->
  exists k,
    [/\ (k < fuel)%N, t = beta_ R ^+ k * t0,
        ~~ armijo_fails fcn xk g dx t, 1 / 10%:R <= t
      & forall j, (j < k)%N ->
          armijo_fails fcn xk g dx (beta_ R ^+ j * t0)
          || (beta_ R ^+ j * t0 < 1 / 10%:R)].
Proof.
elim: fuel t0 => [|f IH] t0 //=; case: ifP => [go /IH[k [kf tk ok ge early]]|].
  exists k.+1; split=> //; first by rewrite tk exprSr mulrA.
  case=> [|j] jk; first by rewrite expr0 mul1r.
  by rewrite exprSr -mulrA; apply: early.
move/negbT; rewrite negb_or -leNgt => /andP[ok ge] [<-].
by exists 0%N; split=> //; rewrite expr0 mul1r.
Qed.

Lemma backtrackS fuel (xk g dx : 'cV[R]_m) (t : R) :
  backtrack fcn fuel.+1 xk g dx t =
  if armijo_fails fcn xk g dx t || (t < 1 / 10%:R)
  then backtrack fcn fuel xk g dx (beta_ R * t) else Done t.
Proof. by []. Qed.

Lemma backtrack_reaches fuel (xk g dx : 'cV[R]_m) (t0 : R) k :
  (k < fuel)%N ->
  ~~ armijo_fails fcn xk g dx (beta_ R ^+ k * t0) ->
  1 / 10%:R <= beta_ R ^+ k * t0 ->
  (forall j, (j < k)%N ->
     armijo_fails fcn xk g dx (beta_ R ^+ j * t0)
     || (beta_ R ^+ j * t0 < 1 / 10%:R)) ->
  backtrack fcn fuel xk g dx t0 = Done (beta_ R ^+ k * t0).
Proof.
elim: fuel t0 k => [|f IH] t0 [|k] //; rewrite backtrackS.
  rewrite expr0 mul1r => _ /negbTE-> ge _.
  by rewrite ltNge ge.
rewrite ltnS => kf ok ge early.
have := early 0%N (ltn0Sn k); rewrite expr0 mul1r => ->.
rewrite exprSr -mulrA; apply: IH => //.
- by rewrite [_ * (_ * _)]mulrA -exprSr.
- by rewrite [_ * (_ * _)]mulrA -exprSr.
by move=> j jk; rewrite [_ * (_ * _)]mulrA -exprSr; apply: early.
Qed.

Lemma frac_le (a b c d : nat) :
  (0 < b)%N -> (0 < d)%N -> (a * d <= c * b)%N ->
  a%:R / b%:R <= c%:R / d%:R :> R.
Proof.
move=> b0 d0 le.
rewrite ler_pdivrMr ?ltr0n // mulrAC ler_pdivlMr ?ltr0n //.
by rewrite -!natrM ler_nat.
Qed.

Lemma frac_mul (a b c d : nat) :
  (a%:R / b%:R) * (c%:R / d%:R) = (a * c)%:R / (b * d)%:R :> R.
Proof. by rewrite mulrACA -invfM -!natrM. Qed.

(** [0.8^11 < 0.1]: the eleventh shrinking takes [t] below the floor. *)
Lemma beta_pow11 : beta_ R ^+ 11 < 1 / 10%:R.
Proof.
have b0 : 0 <= beta_ R by apply: ltW; apply: beta_gt0.
have b2 : beta_ R ^+ 2 <= 16%:R / 25%:R.
  by rewrite expr2 /beta_ frac_mul; apply: frac_le.
have b3 : beta_ R ^+ 3 <= 13%:R / 25%:R.
  by rewrite exprS expr2 /beta_ !frac_mul; apply: frac_le.
have b5 : beta_ R ^+ 5 <= 1%:R / 3%:R.
  rewrite (exprD _ 3 2); apply: le_trans (_ : 208%:R / 625%:R <= _).
    rewrite -[208%:R / 625%:R](frac_mul 13 25 16 25).
    by apply: ler_pM => //; apply: exprn_ge0.
  exact: frac_le.
have b6 : beta_ R ^+ 6 <= 7%:R / 25%:R.
  rewrite (exprD _ 3 3); apply: le_trans (_ : 169%:R / 625%:R <= _).
    rewrite -[169%:R / 625%:R](frac_mul 13 25 13 25).
    by apply: ler_pM => //; apply: exprn_ge0.
  exact: frac_le.
rewrite (exprD _ 6 5); apply: le_lt_trans (_ : 7%:R / 75%:R < _).
  rewrite -[7%:R / 75%:R](frac_mul 7 25 1 3).
  by apply: ler_pM => //; apply: exprn_ge0.
rewrite -[1]/(1%:R) ltr_pdivrMr ?ltr0n // mulrAC ltr_pdivlMr ?ltr0n //.
by rewrite -!natrM ltr_nat.
Qed.

Lemma above_floor_count k : 1 / 10%:R <= beta_ R ^+ k -> (k <= 10)%N.
Proof.
move=> ge; rewrite leqNgt; apply/negP => k11.
have b0 : 0 <= beta_ R by apply: ltW; apply: beta_gt0.
have := ler_wiXn2l b0 (beta_le1 R) k11.
by move/(le_trans ge)/le_lt_trans/(_ beta_pow11); rewrite ltxx.
Qed.

(** X1.  [f_sq_err]: the squared error returned by [f_sq] is never
    negative, and it is zero exactly when the error vector of [fcn] is
    zero. *)
Theorem squared_error_zero_iff (x : 'cV[R]_m) :
  0 <= f_sq_err fcn x /\ (f_sq_err fcn x = 0 <-> fcn x = 0).
Proof.
rewrite /f_sq_err; split; first exact: dot_ge0.
split=> [/eqP|fx]; first by rewrite dot_eq0 => /eqP.
by apply/eqP; rewrite dot_eq0 fx.
Qed.

(** X2.  [__init__] and [optimize]: a Gauss-Newton run ignores the [alpha]
    it is given and is, result for result, the Levenberg-Marquardt run
    with [alpha = 0]. *)
Theorem gauss_newton_is_undamped_lm lf fuel x0 glob a e max_it :
  optimize fcn lib lf fuel (init x0 GN glob a e) max_it =
  optimize fcn lib lf fuel (init x0 LM glob 0 e) max_it.
Proof.
rewrite /optimize.
have -> : start (init x0 GN glob a e) = start (init x0 LM glob 0 e) by [].
elim: fuel (start _) => [|f IH] st //; rewrite !optimize_loopS.
have -> : step fcn lib lf (init x0 GN glob a e) st
          = step fcn lib lf (init x0 LM glob 0 e) st by [].
by case: step => [r|err||] //=; rewrite IH.
Qed.

(** X3.  [optimize], loop body without line search: when the curvature
    matrix [B] of the pass is invertible (and [pinv] is a generalised
    inverse on it), the step [dx] of the pass solves [B dx = - gradf] and
    the iterate moves by [dx]. *)
Theorem step_solves_newton_system lf self st B :
  global_ self = false ->
  curvature lib self (cur_x st) (cur_B st) = Done B ->
  B \in unitmx -> B *m pinv lib B *m B = B ->
  exists st' dx,
    [/\ step fcn lib lf self st = Done (st', dx),
        B *m dx = - gradient fcn lib self (cur_x st)
      & cur_x st' = cur_x st + dx].
Proof.
move=> plain cB uB pB.
have [st' [E x' _]] := step_unit lf plain cB uB pB.
exists st', (- (invmx B *m gradient fcn lib self (cur_x st))); split=> //.
by rewrite mulmxN mulmxA mulmxV // mul1mx.
Qed.

(** X4.  [optimize], method LM with a positive [alpha]: the matrix
    [J'J + alpha I] is invertible whatever the Jacobian, the pass returns,
    its step solves the damped normal equations, and the step is a descent
    direction: [gradf . dx <= 0], strictly when [gradf] is not zero. *)
Theorem lm_step_is_descent lf x0 a e st :
  0 < a ->
  let self := init x0 LM false a e in
  let J := jac_fcn lib (cur_x st) in
  let B := J^T *m J + a *: 1%:M in
  let g := J^T *m fcn (cur_x st) in
  B *m pinv lib B *m B = B ->
  exists st' dx,
    [/\ step fcn lib lf self st = Done (st', dx),
        B *m dx = - g,
        \sum_k g k 0 * dx k 0 <= 0
      & g != 0 -> \sum_k g k 0 * dx k 0 < 0].
Proof.
move=> a0 self J B g pB.
have pd : QPSolver.positive_definite B by apply: damped_gram_definite.
have uB := definite_unit pd.
have cB : curvature lib self (cur_x st) (cur_B st) = Done B by [].
have [st' [E _ _]] := step_unit lf (erefl : global_ self = false) cB uB pB.
exists st', (- (invmx B *m g)); split=> //.
- by rewrite mulmxN mulmxA mulmxV // mul1mx.
- have [/eqP->|g0] := boolP (g == 0); last exact: ltW (definite_descent pd g0).
  by rewrite big1 // => k _; rewrite mxE mul0r.
exact: definite_descent.
Qed.

(** X5.  [optimize], inner [while]: the loop started at [t = 1] exits with
    [t] exactly when [t = 0.8^k] for the first [k] at which the
    sufficient-decrease test succeeds, and that [t] is at least 0.1. *)
Theorem backtrack_first_success fuel (xk g dx : 'cV[R]_m) (t : R) :
  backtrack fcn fuel xk g dx 1 = Done t <->
  exists k,
    [/\ (k < fuel)%N, t = beta_ R ^+ k, 1 / 10%:R <= t <= 1,
        ~~ armijo_fails fcn xk g dx t
      & forall j, (j < k)%N -> armijo_fails fcn xk g dx (beta_ R ^+ j)].
Proof.
have b0 : 0 <= beta_ R by apply: ltW; apply: beta_gt0.
split=> [/backtrack_trace[k [kf]]|[k [kf -> /andP[ge _] ok early]]].
  rewrite mulr1 => tk ok ge early; exists k; split=> //.
    by rewrite ge tk exprn_ile1 // beta_le1.
  move=> j jk; have := early j jk; rewrite mulr1.
  suff /negbTE-> : ~~ (beta_ R ^+ j < 1 / 10%:R) by rewrite orbF.
  rewrite -leNgt (le_trans ge) // tk.
  by apply: ler_wiXn2l (ltnW jk) => //; apply: beta_le1.
rewrite -[beta_ R ^+ k]mulr1; apply: backtrack_reaches; rewrite ?mulr1 //.
by move=> j jk; rewrite mulr1 early.
Qed.

(** X6.  [optimize], inner [while]: whether the loop exits is settled by
    its first eleven tests.  A search that exits has multiplied [t] by
    [0.8] at most ten times ([0.8^11 < 0.1]); a search that has not exited
    by then never does. *)
Theorem line_search_decided_in_eleven_tests fuel (xk g dx : 'cV[R]_m) :
  (10 < fuel)%N ->
  backtrack fcn fuel xk g dx 1 = backtrack fcn 11 xk g dx 1 /\
  forall t, backtrack fcn fuel xk g dx 1 = Done t ->
    exists2 k, (k <= 10)%N & t = beta_ R ^+ k.
Proof.
move=> big.
have count f t : backtrack fcn f xk g dx 1 = Done t ->
    exists2 k, (k <= 10)%N &
      t = beta_ R ^+ k /\
      forall f', (10 < f')%N -> backtrack fcn f' xk g dx 1 = Done t.
  case/backtrack_trace=> k [_ tk ok ge early].
  have k10 : (k <= 10)%N.
    by apply: above_floor_count; move: ge; rewrite tk mulr1.
  exists k => //; split=> [|f' big']; first by rewrite tk mulr1.
  rewrite tk; apply: backtrack_reaches; rewrite -?tk //.
  exact: leq_ltn_trans big'.
split; last by move=> t /count[k k10 [tk _]]; exists k.
case: (backtrack_outcome fcn 11 xk g dx 1) => [[t E11]|E11].
  by rewrite E11; have [k _ [_]] := count _ _ E11; apply.
case: (backtrack_outcome fcn fuel xk g dx 1) => [[t E]|->]; last by rewrite E11.
by have [k _ [_ /(_ 11%N isT)]] := count _ _ E; rewrite E11.
Qed.

(** X7.  [optimize], loop body with line search: a pass that returns, and
    whose unscaled step is not an ascent direction, strictly decreases the
    squared error. *)
Theorem searched_pass_decreases lf self st st' dx :
  global_ self ->
  step fcn lib lf self st = Done (st', dx) ->
  \sum_k gradient fcn lib self (cur_x st) k 0 * dx k 0 <= 0 ->
  f_sq_err fcn (cur_x st') < f_sq_err fcn (cur_x st).
Proof.
move=> glob; rewrite /step glob.
case: curvature => [B|err||] //=.
set g := gradient fcn lib self (cur_x st); set d := - (pinv lib B *m g).
case E: backtrack => [t|err||] //= [<- <-] /= down.
have [ok ge] := backtrack_exit E.
move: ok; rewrite /armijo_fails -ltNge => /lt_le_trans; apply.
rewrite gerDl /gamma_ -mulrA.
have -> : t * (\sum_k g k 0 * d k 0) = \sum_k g k 0 * (t *: d) k 0.
  rewrite mulr_sumr; apply: eq_bigr => k _.
  by rewrite [(t *: d) k 0]mxE mulrCA.
by rewrite mulr_ge0_le0 // divr_ge0 // ler0n.
Qed.

(** X8.  [optimize], methods GN and LM without line search: started at a
    point whose error vector is zero, the run returns that point after one
    iteration (the step is zero whatever the Jacobian and the damping). *)
Theorem exact_fit_is_fixed_point lf fuel x0 meth a e max_it :
  meth = GN \/ meth = LM ->
  fcn x0 = 0 -> norm lib 0 < e ->
  optimize fcn lib lf fuel.+1 (init x0 meth false a e) max_it
  = Done (Report x0 1 (max_it < 1)%N).
Proof.
move=> gl fit small; set self := init x0 meth false a e.
have [B cB] : exists B, curvature lib self (cur_x (start self))
                          (cur_B (start self)) = Done B.
  by rewrite /curvature /self; case: gl => -> /=; eexists.
have g0 : gradient fcn lib self (cur_x (start self)) = 0.
  by rewrite /gradient /self; case: gl => -> /=; rewrite fit mulmx0.
have [st' [E x' i']] := step_stationary lf (erefl : global_ self = false) cB g0.
rewrite /optimize optimize_loopS E bind_Done /exit_test.
by rewrite [(st', 0).2]/= [eps self]/= small /= x' i'.
Qed.

(** X9.  [optimize], exit block: a run that returns has made between 1 and
    [max_it + 1] iterations, prints the warning exactly when it made
    [max_it + 1], returns the iterate of its last pass, and without
    warning the last step is shorter than [eps]. *)
Theorem report_is_consistent lf fuel self max_it rep :
  optimize fcn lib lf fuel self max_it = Done rep ->
  [/\ (0 < iterations rep <= max_it.+1)%N,
      warning rep = (iterations rep == max_it.+1)
    & exists r,
        [/\ pass fcn lib lf self (iterations rep).-1 (start self) = Done r,
            final_x rep = cur_x r.1
          & ~~ warning rep -> norm lib r.2 < eps self]].
Proof.
case/optimize_loop_first_exit=> k [r [_ pk xk early ->]] /=.
have ik := pass_count pk; rewrite add0n in ik.
have km : (k <= max_it)%N.
  case: k pk early {xk ik} => [|k] // /pass_prefix[r' pk'] early.
  have := early k r' (ltnSn k) pk'; rewrite /exit_test negb_or -leqNgt.
  by have := pass_count pk'; rewrite add0n => -> /andP[].
rewrite ik /= ltnS km; split=> //.
  by rewrite ?ltnS eqSS eqn_leq km.
exists r; split=> //.
move: xk; rewrite /exit_test ik; case: (norm lib r.2 < eps self) => //=.
by rewrite ?ltnS => ->.
Qed.

(** X11.  [optimize], method EN without line search: when the squared
    error is quadratic (gradient [H x + g0], Hessian [H] invertible), the
    first pass lands on the stationary point [- H^-1 g0] from any start
    and the run returns it after at most two iterations. *)
Theorem exact_newton_on_quadratic lf x0 a e max_it
  (H : 'M[R]_m) (g0 : 'cV[R]_m) :
  (forall x, (jac_sq lib x)^T = H *m x + g0) ->
  (forall x, hess_sq lib x = H) ->
  H \in unitmx -> H *m pinv lib H *m H = H ->
  norm lib 0 < e ->
  exists rep,
    [/\ optimize fcn lib lf 2 (init x0 EN false a e) max_it = Done rep,
        final_x rep = - (invmx H *m g0),
        H *m final_x rep + g0 = 0
      & (iterations rep <= 2)%N].
Proof.
move=> grad hess uH pH small; set self := init x0 EN false a e.
have cB st : curvature lib self (cur_x st) (cur_B st) = Done H.
  by rewrite /curvature /= hess.
have plain : global_ self = false by [].
have [st1 [E1 x1 _]] := step_unit lf plain (cB (start self)) uH pH.
have x1E : cur_x st1 = - (invmx H *m g0).
  rewrite x1 /gradient /= grad mulmxDr mulmxA mulVmx // mul1mx.
  by rewrite opprD addrA subrr sub0r.
have g1 : gradient fcn lib self (cur_x st1) = 0.
  by rewrite /gradient /= grad x1E mulmxN mulmxA mulmxV // mul1mx addNr.
have stay := step_stationary lf plain (cB st1) g1.
have [rep [run xr ir]] := lands_and_stays max_it E1 stay small.
exists rep; split=> //; rewrite xr //.
by rewrite x1E mulmxN mulmxA mulmxV // mul1mx addNr.
Qed.

(** X12.  [optimize], method GN without line search: when the error vector
    is linear, [fcn x = Y - M x] with [M'M] invertible, the run returns a
    solution of the normal equations [M'M x = M'Y] after at most two
    iterations, from any start. *)
Theorem gauss_newton_on_linear_residual lf x0 a e max_it
  (M : 'M[R]_(N, m)) (Y : 'cV[R]_N) :
  (forall x, fcn x = Y - M *m x) ->
  (forall x, jac_fcn lib x = - M) ->
  let G := M^T *m M in
  G \in unitmx -> G *m pinv lib G *m G = G ->
  norm lib 0 < e ->
  exists rep,
    [/\ optimize fcn lib lf 2 (init x0 GN false a e) max_it = Done rep,
        M^T *m M *m final_x rep = M^T *m Y
      & (iterations rep <= 2)%N].
Proof.
move=> res jac G uG pG small; set self := init x0 GN false a e.
have cB st : curvature lib self (cur_x st) (cur_B st) = Done G.
  rewrite /curvature /= jac scale0r addr0.
  by rewrite mulmxN [(- M)^T]linearN /= mulNmx opprK.
have gE x : gradient fcn lib self x = G *m x - M^T *m Y.
  rewrite /gradient /= jac res [(- M)^T]linearN /= mulNmx mulmxBr opprB.
  by rewrite mulmxA.
have plain : global_ self = false by [].
have [st1 [E1 x1 _]] := step_unit lf plain (cB (start self)) uG pG.
have x1E : cur_x st1 = invmx G *m (M^T *m Y).
  rewrite x1 gE mulmxBr mulmxA mulVmx // mul1mx.
  by rewrite opprB addrCA subrr addr0.
have g1 : gradient fcn lib self (cur_x st1) = 0.
  by rewrite gE x1E mulmxA mulmxV // mul1mx subrr.
have stay := step_stationary lf plain (cB st1) g1.
have [rep [run xr ir]] := lands_and_stays max_it E1 stay small.
exists rep; split=> //.
by rewrite xr x1E -/G mulmxA mulmxV // mul1mx.
Qed.

End Passes.

(** *** Runs on the one-parameter problem *)

Section ParabolaMore.

Import Parabola.

Lemma small_0 : norm lib 0 < 1 / 1000%:R :> rat.
Proof. by rewrite /= mxE normr0 divr_gt0 ?ltr0n. Qed.

Lemma pinv_ok (B : 'M[rat]_1) : B *m pinv lib B *m B = B.
Proof. exact: (mulmxKpV (submx_refl _)). Qed.

Lemma two_unit : (2%:R *: 1%:M : 'M[rat]_1) \in unitmx.
Proof.
by rewrite scalemx1 unitmxE det_scalar unitfE expf_neq0 // pnatr_eq0.
Qed.

(** X3, witness: gradient descent with [alpha = 1] on the parabola, where
    [B] is the identity. *)
Lemma step_solves_newton_system_witness :
  let self := init (1%:M : 'cV[rat]_1) GD false 1 (1 / 1000%:R) in
  exists st' dx,
    [/\ step fcn lib 0 self (start self) = Done (st', dx),
        1%:M *m dx = - gradient fcn lib self (cur_x (start self))
      & cur_x st' = cur_x (start self) + dx].
Proof.
move=> self.
apply: (@step_solves_newton_system _ 1 1 fcn lib 0 self (start self) 1%:M).
- by [].
- by rewrite /curvature /= divr1 scale1r.
- exact: unitmx1.
exact: pinv_ok.
Defined.

(** X4, witness: [alpha = 1] on the parabola, started at 1. *)
Lemma lm_step_is_descent_witness :
  let x0 : 'cV[rat]_1 := 1%:M in
  let self := init x0 LM false 1 (1 / 1000%:R) in
  let J := jac_fcn lib x0 in
  let B := J^T *m J + 1 *: 1%:M in
  let g := J^T *m fcn x0 in
  exists st' dx,
    [/\ step fcn lib 0 self (start self) = Done (st', dx),
        B *m dx = - g,
        \sum_k g k 0 * dx k 0 <= 0
      & g != 0 -> \sum_k g k 0 * dx k 0 < 0].
Proof.
move=> x0 self J B g.
apply: (@lm_step_is_descent _ 1 1 fcn lib 0 x0 1 (1 / 1000%:R) (start self)
          ltr01).
exact: pinv_ok.
Defined.

(** From 1 along the step [-2]: the test fails at [t = 1] and succeeds at
    [t = 0.8]. *)
Lemma search_from_1 :
  backtrack fcn 2 (1%:M : 'cV[rat]_1) (2%:R *: 1%:M) (- (2%:R *: 1%:M)) 1
  = Done (beta_ rat ^+ 1).
Proof.
rewrite -[beta_ rat ^+ 1]mulr1.
apply: (@backtrack_reaches _ 1 1 fcn 2 _ _ _ 1 1 (ltnSn 1)).
- by rewrite armijo_parabola !mxE; vm_compute.
- by vm_compute.
case=> [|j] lt; last by [].
by rewrite armijo_parabola !mxE; vm_compute.
Qed.

(** X5, witness: on the parabola from 1 along the step [-2] the test fails
    at [t = 1] and succeeds at [t = 0.8]. *)
Lemma backtrack_first_success_witness :
  backtrack fcn 2 (1%:M : 'cV[rat]_1) (2%:R *: 1%:M) (- (2%:R *: 1%:M)) 1
  = Done (beta_ rat ^+ 1).
Proof.
apply/(@backtrack_first_success _ 1 1 fcn 2 1%:M (2%:R *: 1%:M)
         (- (2%:R *: 1%:M)) (beta_ rat ^+ 1)).
exists 1%N; split.
- exact: ltnSn.
- by [].
- by vm_compute.
- by rewrite armijo_parabola !mxE; vm_compute.
case=> [|j] lt; last by [].
by rewrite armijo_parabola !mxE; vm_compute.
Defined.

(** X6, witness: twelve tests against eleven, on the parabola from 1 along
    the step [-2]. *)
Lemma line_search_decided_in_eleven_tests_witness :
  let xk : 'cV[rat]_1 := 1%:M in
  let g : 'cV[rat]_1 := 2%:R *: 1%:M in
  backtrack fcn 12 xk g (- g) 1 = backtrack fcn 11 xk g (- g) 1 /\
  forall t, backtrack fcn 12 xk g (- g) 1 = Done t ->
    exists2 k, (k <= 10)%N & t = beta_ rat ^+ k.
Proof.
move=> xk g.
exact: (@line_search_decided_in_eleven_tests _ 1 1 fcn 12 xk g (- g) isT).
Defined.

Lemma step_searched (self : newton_opt rat 1) st B t :
  global_ self ->
  curvature lib self (cur_x st) (cur_B st) = Done B ->
  backtrack fcn 2 (cur_x st) (gradient fcn lib self (cur_x st))
    (- (pinv lib B *m gradient fcn lib self (cur_x st))) 1 = Done t ->
  exists st',
    step fcn lib 2 self st
    = Done (st', t *: - (pinv lib B *m gradient fcn lib self (cur_x st)))
    /\ cur_x st'
       = cur_x st + t *: - (pinv lib B *m gradient fcn lib self (cur_x st)).
Proof. by rewrite /step => -> -> /= -> /=; eexists; split. Qed.

(** X7, witness: gradient descent with line search on the parabola: the pass
    goes from 1 to [-0.6]. *)
Lemma searched_pass_decreases_witness :
  let self := init (1%:M : 'cV[rat]_1) GD true 1 (1 / 1000%:R) in
  exists st' dx,
    step fcn lib 2 self (start self) = Done (st', dx) /\
    f_sq_err fcn (cur_x st') < f_sq_err fcn (cur_x (start self)).
Proof.
move=> self.
have cB : curvature lib self (cur_x (start self)) (cur_B (start self))
          = Done 1%:M.
  by rewrite /curvature /= divr1 scale1r.
have gE : gradient fcn lib self (cur_x (start self)) = 2%:R *: 1%:M.
  by rewrite gradient_sq.
have bt : backtrack fcn 2 (cur_x (start self))
            (gradient fcn lib self (cur_x (start self)))
            (- (pinv lib 1%:M *m gradient fcn lib self (cur_x (start self))))
            1 = Done (beta_ rat ^+ 1).
  by rewrite gE [pinv lib _]pinvmxE ?unitmx1 // invmx1 mul1mx search_from_1.
have [st' [E x']] := step_searched (isT : global_ self) cB bt.
exists st', (beta_ rat ^+ 1 *:
             - (pinv lib 1%:M *m gradient fcn lib self (cur_x (start self)))).
split; first exact: E.
apply: (@searched_pass_decreases _ 1 1 fcn lib 2 self (start self) st' _ isT E).
rewrite gE [pinv lib _]pinvmxE ?unitmx1 // invmx1 mul1mx big_ord1 !mxE.
by vm_compute.
Defined.

(** X8, witness: Gauss-Newton on the parabola, started at its minimiser 0. *)
Lemma exact_fit_is_fixed_point_witness :
  optimize fcn lib 0 1 (init (0 : 'cV[rat]_1) GN false 1 (1 / 1000%:R)) 100
  = Done (Report 0 1 (100 < 1)%N).
Proof.
apply: (@exact_fit_is_fixed_point _ 1 1 fcn lib 0 0 0 GN 1 (1 / 1000%:R) 100).
- by left.
- by [].
exact: small_0.
Defined.

(** X9, witness: the two passes of gradient descent with [max_it = 1] on the
    parabola. *)
Lemma report_is_consistent_witness :
  let self := init (1%:M : 'cV[rat]_1) GD false 1 (1 / 1000%:R) in
  let rep := Report (1%:M : 'cV[rat]_1) 2 true in
  [/\ (0 < iterations rep <= 2)%N,
      warning rep = (iterations rep == 2)
    & exists r,
        [/\ pass fcn lib 0 self (iterations rep).-1 (start self) = Done r,
            final_x rep = cur_x r.1
          & ~~ warning rep -> norm lib r.2 < eps self]].
Proof.
move=> self rep.
apply: (@report_is_consistent _ 1 1 fcn lib 0 2 self 1 rep).
by apply: gd_two_passes; rewrite !mxE; vm_compute.
Defined.

(** X11, witness: the parabola, whose squared error has gradient [2x] and
    Hessian 2. *)
Lemma exact_newton_on_quadratic_witness :
  exists rep,
    [/\ optimize fcn lib 0 2 (init (1%:M : 'cV[rat]_1) EN false 1
                                (1 / 1000%:R)) 100 = Done rep,
        final_x rep = - (invmx (2%:R *: 1%:M) *m 0),
        (2%:R *: 1%:M) *m final_x rep + 0 = 0
      & (iterations rep <= 2)%N].
Proof.
apply: (@exact_newton_on_quadratic _ 1 1 fcn lib 0 1%:M 1 (1 / 1000%:R) 100
          (2%:R *: 1%:M) 0).
- by move=> x; rewrite /= linearZ /= trmxK addr0 -scalemxAl mul1mx.
- by [].
- exact: two_unit.
- exact: pinv_ok.
exact: small_0.
Defined.

(** X12, witness: the parabola, whose error vector is [0 - (-1) x]. *)
Lemma gauss_newton_on_linear_residual_witness :
  let M : 'M[rat]_1 := - 1%:M in
  exists rep,
    [/\ optimize fcn lib 0 2 (init (1%:M : 'cV[rat]_1) GN false 1
                                (1 / 1000%:R)) 100 = Done rep,
        M^T *m M *m final_x rep = M^T *m 0
      & (iterations rep <= 2)%N].
Proof.
move=> M.
apply: (@gauss_newton_on_linear_residual _ 1 1 fcn lib 0 1%:M 1
          (1 / 1000%:R) 100 M 0).
- by move=> x; rewrite /fcn /M mulNmx mul1mx opprK add0r.
- by move=> x; rewrite /M opprK.
- by rewrite /M [(- _)^T]linearN /= trmx1 mulNmx mul1mx opprK unitmx1.
- exact: pinv_ok.
exact: small_0.
Defined.

End ParabolaMore.

End NewtonMore.

(** * Properties of the regression example *)

Module RegressionFacts.

Import Regression.

Section Facts.

Variable R : realFieldType.
Variables m N : nat.

Implicit Types (x : 'cV[R]_m) (d : data R N).

Lemma forward_moments (u0 u1 u2 : 'cV[R]_N) x x' :
  \sum_i x i 0 = \sum_i x' i 0 ->
  \sum_i x i 0 * x i 0 = \sum_i x' i 0 * x' i 0 ->
  forward u0 u1 u2 x = forward u0 u1 u2 x'.
Proof.
move=> s1 s2; rewrite /forward /reduce_mean s1; congr (_ / _ *: _ + _ + _).
have sq y : \sum_i squares y i 0 = \sum_i y i 0 * y i 0.
  by apply: eq_bigr => i _; rewrite mxE.
by rewrite !sq.
Qed.

(** X17.  [f_vec_err]: the error vector depends on the parameters only
    through their sum and the sum of their squares. *)
Theorem f_vec_err_sees_two_moments d x x' :
  \sum_i x i 0 = \sum_i x' i 0 ->
  \sum_i x i 0 * x i 0 = \sum_i x' i 0 * x' i 0 ->
  f_vec_err d x = f_vec_err d x'.
Proof.
by move=> s1 s2; rewrite /f_vec_err; congr (_ - _); apply: forward_moments.
Qed.

(** X18.  [f_vec_err]: permuting the entries of the parameter vector does
    not change the error vector. *)
Theorem f_vec_err_permutation_invariant d x (s : 'S_m) :
  f_vec_err d (row_perm s x) = f_vec_err d x.
Proof.
rewrite /f_vec_err; congr (_ - _); apply: forward_moments.
  rewrite [RHS](reindex_inj (@perm_inj _ s)) /=.
  by apply: eq_bigr => i _; rewrite mxE.
rewrite [RHS](reindex_inj (@perm_inj _ s)) /=.
by apply: eq_bigr => i _; rewrite !mxE.
Qed.

(** X19.  Data cell and [f_vec_err]: at the parameters [x0] that generated
    the data the error vector is the noise term [0.001 * noise], the
    squared error is [0.001^2] times the squared length of the noise, and
    without noise [x0] minimises the squared error. *)
Theorem residual_at_true_parameters (x0 : 'cV[R]_m)
  (u0 u1 u2 noise : 'cV[R]_N) :
  (0 < m)%N ->
  let d := generate x0 u0 u1 u2 noise in
  [/\ f_vec_err d x0 = (1 / 1000%:R) *: noise,
      Newton.f_sq_err (f_vec_err d) x0
      = (1 / 1000%:R) ^+ 2 * \sum_k noise k 0 * noise k 0
    & noise = 0 ->
      forall x, Newton.f_sq_err (f_vec_err d) x0
                <= Newton.f_sq_err (f_vec_err d) x].
Proof.
move=> _ d.
have res : f_vec_err d x0 = (1 / 1000%:R) *: noise.
  by rewrite /f_vec_err /d /= addrC addKr.
split=> //.
  rewrite /Newton.f_sq_err res mulr_sumr; apply: eq_bigr => k _.
  by rewrite !mxE expr2 mulrACA.
move=> n0 x; rewrite /Newton.f_sq_err res n0 scaler0.
have -> : \sum_k (0 : 'cV[R]_N) k 0 * (0 : 'cV[R]_N) k 0 = 0.
  by apply: big1 => k _; rewrite mxE mul0r.
by apply: sumr_ge0 => k _; rewrite -expr2 sqr_ge0.
Qed.

End Facts.

(** X17, witness: the two unit vectors of length 2. *)
Lemma f_vec_err_sees_two_moments_witness :
  let d : data rat 1 := Data 1%:M 1%:M 1%:M 1%:M in
  let x : 'cV[rat]_2 := \col_i (i == 0 :> nat)%:R in
  let x' : 'cV[rat]_2 := \col_i (i == 1 :> nat)%:R in
  f_vec_err d x = f_vec_err d x'.
Proof.
move=> d x x'; apply: (@f_vec_err_sees_two_moments rat 2 1 d x x').
  by rewrite !big_ord_recl !big_ord0 !mxE; apply/eqP; vm_compute.
by rewrite !big_ord_recl !big_ord0 !mxE; apply/eqP; vm_compute.
Defined.

(** X19, witness: one parameter, one data point, no noise. *)
Lemma residual_at_true_parameters_witness :
  let x0 : 'cV[rat]_1 := 1%:M in
  let d := generate x0 (1%:M : 'cV[rat]_1) 1%:M 1%:M 0 in
  [/\ @f_vec_err rat 1 1 d x0 = (1 / 1000%:R) *: 0,
      Newton.f_sq_err (@f_vec_err rat 1 1 d) x0
      = (1 / 1000%:R) ^+ 2 * \sum_k (0 : 'cV[rat]_1) k 0 * (0 : 'cV[rat]_1) k 0
    & (0 : 'cV[rat]_1) = 0 ->
      forall x, Newton.f_sq_err (@f_vec_err rat 1 1 d) x0
                <= Newton.f_sq_err (@f_vec_err rat 1 1 d) x].
Proof.
exact: (@residual_at_true_parameters rat 1 1 1%:M 1%:M 1%:M 1%:M 0
          (ltnSn 0)).
Defined.

End RegressionFacts.
